(** * Conventional-commit changesets: a shallow embedding of the utilities

    The TypeScript module turns a list of git commits into changeset
    records.  This file embeds its pure core (the commit grouper, the
    release classifier, the file filter, the changeset assembler and the
    deduplication step) together with the small part of the JavaScript
    string and regular-expression semantics those functions rely on, and
    proves the properties the specification states about them.

    Conventions of the embedding:
    - a JavaScript string is a [string]; every [ascii] stands for one
      UTF-16 code unit in the range 0..255;
    - [undefined] and [null] results are [None];
    - [execSync], which may throw, is a function to [option string]; a
      thrown exception propagates as [None];
    - [String.prototype.match] on a pattern supplied from outside (ignore
      patterns, package directories) is a parameter of the development,
      with [None] for a call that throws: a string pattern that is no
      regular expression makes [RegExp] throw a [SyntaxError]; the
      regular expressions written in the module itself are embedded as
      syntax trees and run by a backtracking matcher. *)

From Stdlib Require Import String Ascii List Bool Arith Lia.
Import ListNotations.

Local Open Scope string_scope.
Local Open Scope list_scope.

(* ================================================================== *)
(** * JavaScript strings *)
(* ================================================================== *)

Module JsString.

Definition code (c : ascii) : nat := nat_of_ascii c.

(** Line terminators of ECMAScript that fit in one byte: LF and CR. *)
Definition isLineTerminator (c : ascii) : bool :=
  Nat.eqb (code c) 10 || Nat.eqb (code c) 13.

(** White space removed by [trim]: TAB, LF, VT, FF, CR, SP and NBSP. *)
Definition isWhiteSpace (c : ascii) : bool :=
  let n := code c in
  Nat.eqb n 9 || Nat.eqb n 10 || Nat.eqb n 11 || Nat.eqb n 12
  || Nat.eqb n 13 || Nat.eqb n 32 || Nat.eqb n 160.

(** [\w] of a regular expression without the [u] or [i] flags. *)
Definition isWordChar (c : ascii) : bool :=
  let n := code c in
  (Nat.leb 48 n && Nat.leb n 57) || (Nat.leb 65 n && Nat.leb n 90)
  || (Nat.leb 97 n && Nat.leb n 122) || Nat.eqb n 95.

Definition LF : ascii := ascii_of_nat 10.
Definition CR : ascii := ascii_of_nat 13.

(** [s.startsWith(p)] *)
Definition startsWith (s p : string) : bool := String.prefix p s.

(** [s.includes(p)] *)
Fixpoint includes (s p : string) : bool :=
  String.prefix p s
  || match s with
     | EmptyString => false
     | String _ s' => includes s' p
     end.

(** The rest of [s] after the literal prefix [p], when [s] starts with it. *)
Fixpoint dropPrefix (p s : string) : option string :=
  match p, s with
  | EmptyString, _ => Some s
  | String a p', String b s' => if Ascii.eqb a b then dropPrefix p' s' else None
  | String _ _, EmptyString => None
  end.

Fixpoint trimStart (s : string) : string :=
  match s with
  | EmptyString => EmptyString
  | String c s' => if isWhiteSpace c then trimStart s' else s
  end.

Fixpoint trimEnd (s : string) : string :=
  match s with
  | EmptyString => EmptyString
  | String c s' =>
      let t := trimEnd s' in
      if isWhiteSpace c && String.eqb t "" then "" else String c t
  end.

(** [s.trim()] *)
Definition trim (s : string) : string := trimEnd (trimStart s).

(** [s.split(sep)] for a separator of one character. *)
Fixpoint split (sep : ascii) (s : string) : list string :=
  match s with
  | EmptyString => [""]
  | String c s' =>
      let r := split sep s' in
      if Ascii.eqb c sep then "" :: r
      else match r with
           | h :: t => String c h :: t
           | [] => [String c ""]
           end
  end.

(** [s.replace(p, '')] for a string pattern [p]: the first occurrence of
    [p] is removed. *)
Fixpoint removeFirst (p s : string) : string :=
  match dropPrefix p s with
  | Some rest => rest
  | None =>
      match s with
      | EmptyString => EmptyString
      | String c s' => String c (removeFirst p s')
      end
  end.

(** [s.replace(/\n|\r/g, '')] *)
Fixpoint removeLineBreaks (s : string) : string :=
  match s with
  | EmptyString => EmptyString
  | String c s' =>
      if isLineTerminator c then removeLineBreaks s'
      else String c (removeLineBreaks s')
  end.

(** [s.replace(/\n$/, '')]: without the [m] flag [$] is the end of the
    input, so at most the last character is removed. *)
Fixpoint stripTrailingNewline (s : string) : string :=
  match s with
  | EmptyString => EmptyString
  | String c s' =>
      if Ascii.eqb c LF && String.eqb s' "" then ""
      else String c (stripTrailingNewline s')
  end.

End JsString.

(* ================================================================== *)
(** * Regular expressions of the module *)
(* ================================================================== *)

Module RegExp.
Import JsString.

(** One-character atoms. *)
Inductive atom : Type :=
| AChar (c : ascii)   (* a literal character *)
| ADot                (* [.]: anything but a line terminator *)
| AWord.              (* [\w] *)

(** The constructs the module's expressions are built from.  All of them
    are anchored at the start of the input ([^]); the quantifiers [*]
    and [+] only ever apply to one-character atoms, [?] to a group. *)
Inductive regex : Type :=
| RAtom (a : atom)
| RLit (s : string)              (* literal text *)
| RStar (a : atom)               (* a*, greedy *)
| RPlus (a : atom)               (* a+, greedy *)
| ROpt (r : regex)               (* (?:r)?, greedy *)
| RSeq (r1 r2 : regex)
| RGroup (n : nat) (r : regex).  (* the n-th capturing group *)

Definition atomMatch (a : atom) (c : ascii) : bool :=
  match a with
  | AChar d => Ascii.eqb d c
  | ADot => negb (isLineTerminator c)
  | AWord => isWordChar c
  end.

(** Captures: group number to captured text; [None] is [undefined]. *)
Definition captures : Type := nat -> option string.

Definition noCaptures : captures := fun _ => None.

Definition setCapture (n : nat) (v : string) (caps : captures) : captures :=
  fun m => if Nat.eqb m n then Some v else caps m.

(** The text consumed between the input [s] and its suffix [rest]. *)
Definition consumed (s rest : string) : string :=
  substring 0 (String.length s - String.length rest) s.

(** Greedy iteration of an atom: the longest run is tried first and the
    matcher backs off one character at a time. *)
Fixpoint star {R : Type} (a : atom) (s : string) (k : string -> option R) : option R :=
  match s with
  | String c s' =>
      if atomMatch a c then
        match star a s' k with
        | Some m => Some m
        | None => k s
        end
      else k s
  | EmptyString => k s
  end.

(** The backtracking matcher, in continuation-passing style: [k] is the
    rest of the pattern.  In [ROpt] an iteration that consumed nothing
    is rejected, as ECMAScript's RepeatMatcher does. *)
Fixpoint run {R : Type} (r : regex) (s : string) (caps : captures)
    (k : string -> captures -> option R) : option R :=
  match r with
  | RAtom a =>
      match s with
      | String c s' => if atomMatch a c then k s' caps else None
      | EmptyString => None
      end
  | RLit p =>
      match dropPrefix p s with
      | Some s' => k s' caps
      | None => None
      end
  | RStar a => star a s (fun s' => k s' caps)
  | RPlus a =>
      match s with
      | String c s' => if atomMatch a c then star a s' (fun s'' => k s'' caps) else None
      | EmptyString => None
      end
  | ROpt r' =>
      match run r' s caps
              (fun s' caps' =>
                 if Nat.eqb (String.length s') (String.length s) then None else k s' caps') with
      | Some m => Some m
      | None => k s caps
      end
  | RSeq r1 r2 => run r1 s caps (fun s1 caps1 => run r2 s1 caps1 k)
  | RGroup n r' =>
      run r' s caps (fun s' caps' => k s' (setCapture n (consumed s s') caps'))
  end.

(** [s.match(/^r/)]: the captures of the match, or [None] for [null]. *)
Definition matchStart (r : regex) (s : string) : option captures :=
  run r s noCaptures (fun _ caps => Some caps).

(** Truthiness of [s.match(/^r/)]. *)
Definition test (r : regex) (s : string) : bool :=
  match matchStart r s with
  | Some _ => true
  | None => false
  end.

(** ** The language of an expression

    What the matcher is checked against: the texts an expression
    matches, without regard to captures or to the order in which the
    matcher tries them. *)

Fixpoint allMatch (a : atom) (s : string) : bool :=
  match s with
  | EmptyString => true
  | String c s' => atomMatch a c && allMatch a s'
  end.

Inductive matches : regex -> string -> Prop :=
| matches_atom (a : atom) (c : ascii) :
    atomMatch a c = true -> matches (RAtom a) (String c "")
| matches_lit (p : string) : matches (RLit p) p
| matches_star (a : atom) (p : string) :
    allMatch a p = true -> matches (RStar a) p
| matches_plus (a : atom) (c : ascii) (p : string) :
    atomMatch a c = true -> allMatch a p = true -> matches (RPlus a) (String c p)
| matches_opt_skip (r : regex) : matches (ROpt r) ""
| matches_opt (r : regex) (p : string) : matches r p -> matches (ROpt r) p
| matches_seq (r1 r2 : regex) (p1 p2 : string) :
    matches r1 p1 -> matches r2 p2 -> matches (RSeq r1 r2) (p1 ++ p2)
| matches_group (n : nat) (r : regex) (p : string) :
    matches r p -> matches (RGroup n r) p.

(** The expression contains the capturing group [n]. *)
Fixpoint hasGroup (n : nat) (r : regex) : bool :=
  match r with
  | RAtom _ | RLit _ | RStar _ | RPlus _ => false
  | ROpt r' => hasGroup n r'
  | RSeq r1 r2 => hasGroup n r1 || hasGroup n r2
  | RGroup m r' => Nat.eqb n m || hasGroup n r'
  end.

(** A continuation whose failure does not depend on the captures. *)
Definition blind {R : Type} (k : string -> captures -> option R) : Prop :=
  forall s c c', k s c = None -> k s c' = None.

End RegExp.

(* ================================================================== *)
(** * Data model *)
(* ================================================================== *)

(** [interface Commit] *)
Record Commit : Type := mkCommit {
  commitHash : string;
  commitMessage : string
}.

(** [interface ConventionalMessagesToCommits]: a logical unit. *)
Record ConventionalMessagesToCommits : Type := mkUnit {
  changelogMessage : string;
  commitHashes : list string
}.

(** ['major' | 'minor' | 'patch'] *)
Inductive ReleaseType : Type := major | minor | patch.

(** [interface ReleaseRule]; an absent optional field is [None], and
    [release: undefined] is [None]. *)
Module ReleaseRule.
Record t : Type := mk {
  breaking : option bool;
  revert : option bool;
  type : option string;
  release : option ReleaseType
}.
End ReleaseRule.

(** An entry of [defaultCommitTypes]. *)
Module CommitType.
Record t : Type := mk {
  type : string;
  section : string
}.
End CommitType.

(** [ManyPkgPackage]: the fields of a workspace package the module reads. *)
Module PackageJson.
Record t : Type := mk {
  name : string;
  version : string
}.
End PackageJson.

Module ManyPkgPackage.
Record t : Type := mk {
  dir : string;
  packageJson : PackageJson.t
}.
End ManyPkgPackage.

(** An element of [Changeset.releases]: an object with the keys [name]
    and [type], in this order. *)
Module Release.
Record t : Type := mk {
  name : string;
  type : ReleaseType
}.
End Release.

(** A changeset as the assembler builds it.  [packagesChanged] is the
    extra field the assembler attaches; the comparison never reads it. *)
Module Changeset.
Record t : Type := mk {
  releases : list Release.t;
  summary : string;
  packagesChanged : list ManyPkgPackage.t
}.
End Changeset.

(** A pattern handed to [String.prototype.match]: a string, which
    [match] turns into a regular expression, or a [RegExp] object. *)
Inductive pattern (RegExpObject : Type) : Type :=
| PString (s : string)
| PRegExp (r : RegExpObject).

Arguments PString {RegExpObject} s.
Arguments PRegExp {RegExpObject} r.

(* ================================================================== *)
(** * Rule tables *)
(* ================================================================== *)

Definition defaultCommitTypes : list CommitType.t :=
  [ CommitType.mk "feat" "Features";
    CommitType.mk "feature" "Features";
    CommitType.mk "fix" "Bug Fixes";
    CommitType.mk "perf" "Performance Improvements";
    CommitType.mk "revert" "Reverts";
    CommitType.mk "docs" "Documentation";
    CommitType.mk "style" "Styles";
    CommitType.mk "chore" "Miscellaneous Chores";
    CommitType.mk "refactor" "Code Refactoring";
    CommitType.mk "test" "Tests";
    CommitType.mk "build" "Build System";
    CommitType.mk "ci" "Continuous Integration" ].

Definition typeRule (ty : string) (r : ReleaseType) : ReleaseRule.t :=
  ReleaseRule.mk None None (Some ty) (Some r).

Definition defaultReleaseRules : list ReleaseRule.t :=
  [ ReleaseRule.mk (Some true) None None (Some major);
    ReleaseRule.mk None (Some true) None (Some patch);
    typeRule "feat" minor;
    typeRule "feature" minor;
    typeRule "fix" patch;
    typeRule "perf" patch;
    typeRule "revert" patch;
    typeRule "docs" patch;
    typeRule "style" patch;
    typeRule "chore" patch;
    typeRule "refactor" patch;
    typeRule "test" patch;
    typeRule "build" patch;
    typeRule "ci" patch ].

(* ================================================================== *)
(** * Predicates on commit messages *)
(* ================================================================== *)

Import JsString RegExp.

Definition chr (c : ascii) : regex := RAtom (AChar c).

(** The expression of [isBreakingChange], built by [new RegExp] from a
    template literal: start anchor, the type name, an optional
    non-capturing group around an escaped parenthesis pair that encloses
    dot-star, then [!:].  In a template literal a backslash before a
    parenthesis is dropped, so the text handed to [RegExp] has plain
    parentheses, which delimit a capturing group around dot-star instead
    of matching parenthesis characters.  The type names of
    [defaultCommitTypes] contain no metacharacter and stand for
    themselves. *)
Definition breakingPattern (ty : string) : regex :=
  RSeq (RLit ty)
    (RSeq (ROpt (RGroup 1 (RStar ADot)))
       (RSeq (chr "!") (chr ":"))).

(** The expression of [isConventionalCommit], built the same way; it
    differs from the previous one in that [!] is optional. *)
Definition conventionalPattern (ty : string) : regex :=
  RSeq (RLit ty)
    (RSeq (ROpt (RGroup 1 (RStar ADot)))
       (RSeq (ROpt (chr "!")) (chr ":"))).

(** The regular-expression literal of [getCommitType]: start anchor,
    group 1 around one or more word characters, optional group 2 around
    a parenthesis pair enclosing dot-plus, optional group 3 around [!],
    then a colon.  In a literal the escaped parentheses are the
    parenthesis characters. *)
Definition commitTypePattern : regex :=
  RSeq (RGroup 1 (RPlus AWord))
    (RSeq (ROpt (RGroup 2 (RSeq (chr "(") (RSeq (RPlus ADot) (chr ")")))))
       (RSeq (ROpt (RGroup 3 (chr "!"))) (chr ":"))).

Definition isBreakingChange (commit : string) : bool :=
  includes commit "BREAKING CHANGE:"
  || existsb (fun commitType => test (breakingPattern (CommitType.type commitType)) commit)
       defaultCommitTypes.

Definition isRevertChange (commit : string) : bool :=
  startsWith commit "revert".

Definition isConventionalCommit (commit : string) : bool :=
  existsb (fun commitType => test (conventionalPattern (CommitType.type commitType)) commit)
    defaultCommitTypes.

(* ================================================================== *)
(** * Commit grouper *)
(* ================================================================== *)

(** Stands for [acc[acc.length - 1]] on an empty accumulator, which the
    reducer never evaluates. *)
Definition noUnit : ConventionalMessagesToCommits := mkUnit "" [].

(** The callback of [commits.reduce]. *)
Definition associate (acc : list ConventionalMessagesToCommits) (curr : Commit)
  : list ConventionalMessagesToCommits :=
  if Nat.eqb (length acc) 0 then
    [ mkUnit (commitMessage curr) [commitHash curr] ]
  else
    let lastUnit := nth (length acc - 1) acc noUnit in
    if isConventionalCommit (commitMessage curr) then
      if isConventionalCommit (changelogMessage lastUnit) then
        acc ++ [ mkUnit (commitMessage curr) [commitHash curr] ]
      else
        firstn (length acc - 1) acc
          ++ [ mkUnit (commitMessage curr) (commitHashes lastUnit ++ [commitHash curr]) ]
    else
      firstn (length acc - 1) acc
        ++ [ mkUnit (changelogMessage lastUnit) (commitHashes lastUnit ++ [commitHash curr]) ].

Definition associateCommitsToConventionalCommitMessages (commits : list Commit)
  : list ConventionalMessagesToCommits :=
  fold_left associate commits [].

(* ================================================================== *)
(** * Release classifier *)
(* ================================================================== *)

Definition getCommitType (commitMessage : string) : option string :=
  match matchStart commitTypePattern commitMessage with
  | Some caps => caps 1
  | None => None
  end.

(** Truthiness of an optional boolean field and of an optional string. *)
Definition isSet (b : option bool) : bool :=
  match b with
  | Some true => true
  | _ => false
  end.

Definition nonEmpty (s : option string) : bool :=
  match s with
  | Some v => negb (String.eqb v "")
  | None => false
  end.

(** [rule.type && rule.type === commitType] *)
Definition typeIs (ruleType : option string) (commitType : string) : bool :=
  nonEmpty ruleType
  && match ruleType with
     | Some v => String.eqb v commitType
     | None => false
     end.

(** The [for] loop of [determineReleaseType]; falling off its end
    returns [undefined]. *)
Fixpoint applyReleaseRules (changelogMessage commitType : string)
    (releaseRules : list ReleaseRule.t) : option ReleaseType :=
  match releaseRules with
  | [] => None
  | rule :: rest =>
      if isSet (ReleaseRule.breaking rule) && isBreakingChange changelogMessage then
        ReleaseRule.release rule
      else if isSet (ReleaseRule.revert rule) && isRevertChange changelogMessage then
        ReleaseRule.release rule
      else if typeIs (ReleaseRule.type rule) commitType then
        ReleaseRule.release rule
      else applyReleaseRules changelogMessage commitType rest
  end.

(** [releaseRules = defaultReleaseRules]: an omitted argument is [None]. *)
Definition determineReleaseType (changelogMessage : string)
    (releaseRules : option (list ReleaseRule.t)) : option ReleaseType :=
  let rules := match releaseRules with
               | Some rs => rs
               | None => defaultReleaseRules
               end in
  let commitType := getCommitType changelogMessage in
  if negb (nonEmpty commitType) then None
  else match commitType with
       | Some ty => applyReleaseRules changelogMessage ty rules
       | None => None
       end.

(* ================================================================== *)
(** * JSON.stringify on release lists *)
(* ================================================================== *)

Module JSON.

Definition DQUOTE : ascii := ascii_of_nat 34.
Definition BACKSLASH : ascii := ascii_of_nat 92.

(** A lowercase hexadecimal digit. *)
Definition hexDigit (n : nat) : ascii :=
  if Nat.ltb n 10 then ascii_of_nat (48 + n) else ascii_of_nat (87 + n).

(** QuoteJSONString, one code unit: the two-character escapes, the
    [\u00XX] form for the other control characters, the character
    itself otherwise. *)
Definition quoteChar (c : ascii) : string :=
  let n := code c in
  if Nat.eqb n 8 then "\b"
  else if Nat.eqb n 9 then "\t"
  else if Nat.eqb n 10 then "\n"
  else if Nat.eqb n 12 then "\f"
  else if Nat.eqb n 13 then "\r"
  else if Nat.eqb n 34 then String BACKSLASH (String DQUOTE "")
  else if Nat.eqb n 92 then String BACKSLASH (String BACKSLASH "")
  else if Nat.ltb n 32 then
    "\u00" ++ String (hexDigit (n / 16)) (String (hexDigit (n mod 16)) "")
  else String c "".

(** The value of a lowercase hexadecimal digit. *)
Definition hexValue (c : ascii) : option nat :=
  let n := code c in
  if Nat.leb 48 n && Nat.leb n 57 then Some (n - 48)
  else if Nat.leb 97 n && Nat.leb n 102 then Some (n - 87)
  else None.

(** Reads one quoted character back from the front of a text; used to
    show that the quoting loses nothing. *)
Definition unquoteChar (s : string) : option (ascii * string) :=
  match s with
  | EmptyString => None
  | String c r =>
      if Nat.eqb (code c) 34 then None
      else if Nat.eqb (code c) 92 then
        match r with
        | EmptyString => None
        | String e r' =>
            let n := code e in
            if Nat.eqb n 98 then Some (ascii_of_nat 8, r')
            else if Nat.eqb n 116 then Some (ascii_of_nat 9, r')
            else if Nat.eqb n 110 then Some (ascii_of_nat 10, r')
            else if Nat.eqb n 102 then Some (ascii_of_nat 12, r')
            else if Nat.eqb n 114 then Some (ascii_of_nat 13, r')
            else if Nat.eqb n 34 then Some (DQUOTE, r')
            else if Nat.eqb n 92 then Some (BACKSLASH, r')
            else if Nat.eqb n 117 then
              match r' with
              | String _ (String _ (String h (String l r''))) =>
                  match hexValue h, hexValue l with
                  | Some x, Some y => Some (ascii_of_nat (16 * x + y), r'')
                  | _, _ => None
                  end
              | _ => None
              end
            else None
        end
      else Some (c, r)
  end.

Fixpoint quoteBody (s : string) : string :=
  match s with
  | EmptyString => EmptyString
  | String c s' => quoteChar c ++ quoteBody s'
  end.

Definition quote (s : string) : string :=
  String DQUOTE (quoteBody s ++ String DQUOTE "").

Definition releaseTypeName (t : ReleaseType) : string :=
  match t with
  | major => "major"
  | minor => "minor"
  | patch => "patch"
  end.

(** An object with the keys [name] and [type]. *)
Definition stringifyRelease (r : Release.t) : string :=
  "{" ++ quote "name" ++ ":" ++ quote (Release.name r) ++ ","
      ++ quote "type" ++ ":" ++ quote (releaseTypeName (Release.type r)) ++ "}".

Fixpoint stringifyElements (rs : list Release.t) : string :=
  match rs with
  | [] => ""
  | [r] => stringifyRelease r
  | r :: rest => stringifyRelease r ++ "," ++ stringifyElements rest
  end.

(** What follows the first element of an array whose other elements
    are [rest], up to the text [tail] after the array's elements. *)
Definition afterFirst (rest : list Release.t) (tail : string) : string :=
  match rest with
  | [] => tail
  | _ :: _ => ("," ++ stringifyElements rest ++ tail)%string
  end.

(** [JSON.stringify(releases)] *)
Definition stringify (rs : list Release.t) : string :=
  "[" ++ stringifyElements rs ++ "]".

End JSON.

(* ================================================================== *)
(** * Deduplication *)
(* ================================================================== *)

Definition compareChangeSet (a b : Changeset.t) : bool :=
  String.eqb (stripTrailingNewline (Changeset.summary a)) (Changeset.summary b)
  && String.eqb (JSON.stringify (Changeset.releases a)) (JSON.stringify (Changeset.releases b)).

Definition difference (a b : list Changeset.t) : list Changeset.t :=
  filter (fun changeA => negb (existsb (fun changeB => compareChangeSet changeA changeB) b)) a.

(** The choice of the changesets to write in [conventionalCommitChangeset]:
    [currentChangesets.length === 0 ? changesets : difference(...)]. *)
Definition newChangesets (changesets currentChangesets : list Changeset.t)
  : list Changeset.t :=
  if Nat.eqb (length currentChangesets) 0 then changesets
  else difference changesets currentChangesets.

(* ================================================================== *)
(** * Package impact and changeset assembly *)
(* ================================================================== *)

(** Code that may throw: the rest runs only when the call returned. *)
Notation "x <- e ;; k" :=
  (match e with
   | Some x => k
   | None => None
   end) (at level 61, e at next level, right associativity).

(** [array.map(f)] with a callback that may throw. *)
Fixpoint mapThrowing {A B : Type} (f : A -> option B) (l : list A) : option (list B) :=
  match l with
  | [] => Some []
  | x :: rest =>
      y <- f x ;;
      ys <- mapThrowing f rest ;;
      Some (y :: ys)
  end.

(** [array.every(f)] with a callback that may throw: the elements are
    tried in order and the first one that fails the test ends the loop,
    so that the callback is not run on the elements after it. *)
Fixpoint everyThrowing {A : Type} (f : A -> option bool) (l : list A) : option bool :=
  match l with
  | [] => Some true
  | x :: rest =>
      b <- f x ;;
      if b then everyThrowing f rest else Some false
  end.

(** [array.some(f)] with a callback that may throw: the first element
    that passes the test ends the loop. *)
Fixpoint someThrowing {A : Type} (f : A -> option bool) (l : list A) : option bool :=
  match l with
  | [] => Some false
  | x :: rest =>
      b <- f x ;;
      if b then Some true else someThrowing f rest
  end.

(** [array.filter(f)] with a callback that may throw. *)
Fixpoint filterThrowing {A : Type} (f : A -> option bool) (l : list A) : option (list A) :=
  match l with
  | [] => Some []
  | x :: rest =>
      b <- f x ;;
      kept <- filterThrowing f rest ;;
      Some (if b then x :: kept else kept)
  end.

(** [array.filter(Boolean)] on objects and [null]. *)
Fixpoint filterBoolean {A : Type} (l : list (option A)) : list A :=
  match l with
  | [] => []
  | Some x :: rest => x :: filterBoolean rest
  | None :: rest => filterBoolean rest
  end.

Section Pipeline.

(** [RegExp] objects supplied by the caller. *)
Variable RegExpObject : Type.

(** Truthiness of [subject.match(pattern)], and [None] when the call
    throws: [match] compiles a string pattern with [RegExp], which
    throws a [SyntaxError] on a text that is no regular expression.  The
    [RegExp] objects are taken to be without the sticky flag, so that
    the outcome is a function of the subject and the pattern. *)
Variable stringMatch : string -> pattern RegExpObject -> option bool.

(** [execSync(command).toString()]; [None] when the command fails and
    [execSync] throws.  The repository does not change during a run. *)
Variable execSync : string -> option string.

Definition getFilesChangedSince (from to : string) : option (list string) :=
  out <- execSync ("git diff --name-only " ++ from ++ "~1..." ++ to) ;;
  Some (split LF (trim out)).

Definition getRepoRoot : option string :=
  out <- execSync "git rev-parse --show-toplevel" ;;
  Some (removeLineBreaks (trim out)).

Definition filterFiles (files : list string)
    (ignoredPatterns : list (pattern RegExpObject)) : option (list string) :=
  filterThrowing
    (fun file =>
       everyThrowing
         (fun pattern =>
            matched <- stringMatch file pattern ;;
            Some (negb matched))
         ignoredPatterns)
    files.

Definition getChangedPackages (filesChanged : list string)
    (packages : list ManyPkgPackage.t) : option (list ManyPkgPackage.t) :=
  repoRoot <- getRepoRoot ;;
  filterThrowing
    (fun pkg =>
       someThrowing
         (fun file =>
            stringMatch file
              (PString (removeFirst (repoRoot ++ "/") (ManyPkgPackage.dir pkg))))
         filesChanged)
    packages.

(** [interface ConventionalMessagesWithCommitsToChangesetsOptions] *)
Record Options : Type := mkOptions {
  ignoredFiles : option (list (pattern RegExpObject));
  packages : list ManyPkgPackage.t;
  releaseRules : option (list ReleaseRule.t)
}.

(** [commitHashes[i]] inside a template literal: an index out of range
    gives [undefined], printed as such. *)
Definition hashAt (i : nat) (hashes : list string) : string :=
  nth i hashes "undefined".

(** The callback of [conventionalMessagesToCommits.map]: [Some None] is
    a returned [null]. *)
Definition changesetOfEntry (options : Options) (entry : ConventionalMessagesToCommits)
  : option (option Changeset.t) :=
  let ignored := match ignoredFiles options with
                 | Some l => l
                 | None => []
                 end in
  let hashes := commitHashes entry in
  files <- getFilesChangedSince (hashAt 0 hashes) (hashAt (length hashes - 1) hashes) ;;
  filesChanged <- filterFiles files ignored ;;
  packagesChanged <- getChangedPackages filesChanged (packages options) ;;
  if Nat.eqb (length packagesChanged) 0 then Some None
  else
    match determineReleaseType (changelogMessage entry) (releaseRules options) with
    | None => Some None
    | Some releaseType =>
        let releases :=
          map (fun pkg =>
                 Release.mk (PackageJson.name (ManyPkgPackage.packageJson pkg)) releaseType)
            packagesChanged in
        Some (Some (Changeset.mk releases (changelogMessage entry) packagesChanged))
    end.

Definition conventionalMessagesWithCommitsToChangesets
    (conventionalMessagesToCommits : list ConventionalMessagesToCommits)
    (options : Options) : option (list Changeset.t) :=
  results <- mapThrowing (changesetOfEntry options) conventionalMessagesToCommits ;;
  Some (filterBoolean results).

End Pipeline.

Arguments filterFiles {RegExpObject} stringMatch files ignoredPatterns.
Arguments getChangedPackages {RegExpObject} stringMatch execSync filesChanged packages.
Arguments mkOptions {RegExpObject} ignoredFiles packages releaseRules.
Arguments ignoredFiles {RegExpObject} o.
Arguments packages {RegExpObject} o.
Arguments releaseRules {RegExpObject} o.
Arguments changesetOfEntry {RegExpObject} stringMatch execSync options entry.
Arguments conventionalMessagesWithCommitsToChangesets {RegExpObject} stringMatch execSync
  conventionalMessagesToCommits options.

(* ================================================================== *)
(** * Notions used in the statements *)
(* ================================================================== *)

(** [l1] is [l2] with some elements left out, the order kept. *)
Inductive sublist {A : Type} : list A -> list A -> Prop :=
| sublist_nil : sublist [] []
| sublist_skip (x : A) (l1 l2 : list A) : sublist l1 l2 -> sublist l1 (x :: l2)
| sublist_keep (x : A) (l1 l2 : list A) : sublist l1 l2 -> sublist (x :: l1) (x :: l2).

(** A rule matches a message whose extracted type is [commitType]: the
    disjunction of the three tests of the classifier's loop. *)
Definition ruleApplies (changelogMessage commitType : string) (rule : ReleaseRule.t) : bool :=
  (isSet (ReleaseRule.breaking rule) && isBreakingChange changelogMessage)
  || (isSet (ReleaseRule.revert rule) && isRevertChange changelogMessage)
  || typeIs (ReleaseRule.type rule) commitType.

(** The severity of the first rule of the table that matches. *)
Definition firstMatchingRelease (changelogMessage commitType : string)
    (releaseRules : list ReleaseRule.t) : option ReleaseType :=
  match find (ruleApplies changelogMessage commitType) releaseRules with
  | Some rule => ReleaseRule.release rule
  | None => None
  end.

(** The test [filterFiles] runs on a file. *)
Definition keepsFile {RegExpObject : Type}
    (stringMatch : string -> pattern RegExpObject -> option bool)
    (ignoredPatterns : list (pattern RegExpObject)) (file : string) : option bool :=
  everyThrowing
    (fun pattern =>
       matched <- stringMatch file pattern ;;
       Some (negb matched))
    ignoredPatterns.

(** The pattern [getChangedPackages] matches the files against for a
    package: its directory without the first occurrence of the root. *)
Definition directoryPattern {RegExpObject : Type} (repoRoot : string)
    (pkg : ManyPkgPackage.t) : pattern RegExpObject :=
  PString (removeFirst (repoRoot ++ "/") (ManyPkgPackage.dir pkg)).

(** The rule table in force: the one given, or the default one. *)
Definition tableOf (releaseRules : option (list ReleaseRule.t)) : list ReleaseRule.t :=
  match releaseRules with
  | Some rs => rs
  | None => defaultReleaseRules
  end.

(** The twelve type names. *)
Definition typeNames : list string := map CommitType.type defaultCommitTypes.

(** The changesets one unit contributes to the output: none when the
    callback returns [null], one otherwise. *)
Definition changesetsOfEntry {RegExpObject : Type}
    (stringMatch : string -> pattern RegExpObject -> option bool)
    (execSync : string -> option string)
    (options : Options RegExpObject) (entry : ConventionalMessagesToCommits)
  : list Changeset.t :=
  match changesetOfEntry stringMatch execSync options entry with
  | Some (Some changeset) => [changeset]
  | _ => []
  end.

(** The conventional-commit pattern as the specification words it: the
    type name, an optional scope between parenthesis characters, an
    optional [!], then a colon. *)
Definition conventionalPatternAsSpecified (ty : string) : regex :=
  RSeq (RLit ty)
    (RSeq (ROpt (RSeq (chr "(") (RSeq (RStar ADot) (chr ")"))))
       (RSeq (ROpt (chr "!")) (chr ":"))).

Definition isConventionalCommitAsSpecified (commit : string) : bool :=
  existsb
    (fun commitType => test (conventionalPatternAsSpecified (CommitType.type commitType)) commit)
    defaultCommitTypes.



(** The message of the first unit: that of the first conventional commit
    of the sequence, or of its first commit when none is conventional. *)
Definition firstUnitMessage (first : Commit) (others : list Commit) : string :=
  match find (fun c => isConventionalCommit (commitMessage c)) (first :: others) with
  | Some c => commitMessage c
  | None => commitMessage first
  end.

(** ** Sample data, after the module's test file *)

Definition newline : string := String LF "".

(** A [regex] without the sticky flag is tried at every position of the
    subject. *)
Fixpoint searchRegex (r : regex) (subject : string) : bool :=
  test r subject
  || match subject with
     | EmptyString => false
     | String _ rest => searchRegex r rest
     end.

Definition startsWithQuantifier (s : string) : bool :=
  startsWith s "*" || startsWith s "+" || startsWith s "?".

(** The outcome of a test, a call that throws counting as no match. *)
Definition isMatch (outcome : option bool) : bool :=
  match outcome with
  | Some true => true
  | _ => false
  end.

(** A matcher for the samples.  A string pattern that starts with a
    quantifier is no regular expression: [RegExp] finds nothing to
    repeat and throws.  Any other string pattern of the samples is
    without metacharacters and matches where it occurs. *)
Definition sampleMatch (subject : string) (p : pattern regex) : option bool :=
  match p with
  | PString s => if startsWithQuantifier s then None else Some (includes subject s)
  | PRegExp r => Some (searchRegex r subject)
  end.

Definition mockedExecSync (command : string) : option string :=
  if includes command "git diff" then
    if includes command "hash1" && includes command "hash2" then
      Some ("packages/package1/file1.ts" ++ newline)%string
    else if includes command "hash3" && includes command "hash4" then
      Some ("packages/package2/file2.ts" ++ newline)%string
    else Some ""
  else if includes command "git rev-parse" then Some ("/repo/root" ++ newline)%string
  else Some "".

Definition package1 : ManyPkgPackage.t :=
  ManyPkgPackage.mk "packages/package1" (PackageJson.mk "package1" "1.0.0").
Definition package2 : ManyPkgPackage.t :=
  ManyPkgPackage.mk "packages/package2" (PackageJson.mk "package2" "1.0.0").

Definition sampleUnits : list ConventionalMessagesToCommits :=
  [ mkUnit "feat: add new feature" ["hash1"; "hash2"];
    mkUnit "fix: fix a bug" ["hash3"; "hash4"] ].

Definition sampleOptions : Options regex :=
  mkOptions None [package1; package2] None.

(** The ignore pattern of the test file (the text [package1/], a group
    around dot-star, a dot and [ts]) as the expression [match] builds
    from it. *)
Definition ignoreTsOfPackage1 : pattern regex :=
  PRegExp (RSeq (RLit "package1/") (RSeq (RGroup 1 (RStar ADot)) (RSeq (RAtom ADot) (RLit "ts")))).

(** A commit sequence whose first commit is not conventional. *)
Definition wipThenFeat : list Commit :=
  [ mkCommit "hash1" "wip"; mkCommit "hash2" "feat: add X" ].

(** A changeset whose summary ends with the newline of a commit body,
    and the same changeset without it. *)
Definition fixWithNewline : Changeset.t :=
  Changeset.mk [Release.mk "package2" patch] ("fix: fix a bug" ++ newline)%string [package2].

Definition fixWithoutNewline : Changeset.t :=
  Changeset.mk [Release.mk "package2" patch] "fix: fix a bug" [package2].

(** A changeset as a store gives it back when the store keeps the
    releases and drops the one trailing newline of the summary. *)
Definition withoutTrailingNewline (c : Changeset.t) : Changeset.t :=
  Changeset.mk (Changeset.releases c) (stripTrailingNewline (Changeset.summary c))
    (Changeset.packagesChanged c).

(* ================================================================== *)
(** * Commit source *)
(* ================================================================== *)

Section CommitSource.

Variable execSync : string -> option string.

Definition gitFetch (branch : string) : option unit :=
  fetched <- execSync ("git fetch origin " ++ branch) ;;
  Some tt.

Definition getCurrentBranch : option string :=
  out <- execSync "git rev-parse --abbrev-ref HEAD" ;;
  Some (trim out).

(** The reference the commits are listed from, before it is trimmed: the
    latest tag on the base branch, with the first commit of the
    repository when [git describe] throws (the [catch] block, whose
    message on the console is left out), and the remote tip of the base
    branch on any other branch. *)
Definition sinceRefOf (branch currentBranch : string) : option string :=
  if String.eqb currentBranch branch then
    match execSync "git describe --tags --abbrev=0" with
    | Some out => Some out
    | None => execSync "git rev-list --max-parents=0 HEAD"
    end
  else Some ("origin/" ++ branch)%string.

(** [array.filter(Boolean)] on strings: the empty string is dropped. *)
Definition nonEmptyLines (lines : list string) : list string :=
  filter (fun line => negb (String.eqb line "")) lines.

Definition getCommitsSinceRef (branch : string) : option (list string) :=
  fetched <- gitFetch branch ;;
  currentBranch <- getCurrentBranch ;;
  sinceRef <- sinceRefOf branch currentBranch ;;
  out <- execSync ("git rev-list --ancestry-path " ++ trim sinceRef ++ "...HEAD") ;;
  Some (rev (nonEmptyLines (split LF out))).

End CommitSource.

(* ================================================================== *)
(** * The script *)
(* ================================================================== *)

(** The fields of the changeset configuration the script reads; an
    absent field is [None]. *)
Record Config : Type := mkConfig {
  baseBranch : option string;
  ignore : option (list string)
}.

(** [Boolean(pkg.packageJson.version)]; an absent version is the empty
    string. *)
Definition hasVersion (pkg : ManyPkgPackage.t) : bool :=
  negb (String.eqb (PackageJson.version (ManyPkgPackage.packageJson pkg)) "").

(** [!ignore.includes(pkg.packageJson.name)] *)
Definition hasNotIgnored (ignore : list string) (pkg : ManyPkgPackage.t) : bool :=
  negb (existsb (String.eqb (PackageJson.name (ManyPkgPackage.packageJson pkg))) ignore).

Section Script.

Variable RegExpObject : Type.
Variable stringMatch : string -> pattern RegExpObject -> option bool.
Variable execSync : string -> option string.

(** The callback of [commitsSinceBase.map]. *)
Definition commitWithMessage (commitHash : string) : option Commit :=
  message <- execSync ("git log -n 1 --pretty=format:%B " ++ commitHash) ;;
  Some (mkCommit commitHash message).

(** [conventionalCommitChangeset], with what its collaborators return
    given as arguments: the parsed configuration, the packages of the
    workspace and the changesets already persisted.  The result is the
    list of the changesets handed to [writeChangeset], in order. *)
Definition conventionalCommitChangeset (changesetConfig : Config)
    (ignoredFiles : list (pattern RegExpObject))
    (workspacePackages : list ManyPkgPackage.t)
    (currentChangesets : list Changeset.t) : option (list Changeset.t) :=
  let baseBranch := match baseBranch changesetConfig with
                    | Some b => b
                    | None => "main"
                    end in
  let ignore := match ignore changesetConfig with
                | Some l => l
                | None => []
                end in
  let packages := filter (fun it => hasVersion it && hasNotIgnored ignore it) workspacePackages in
  commitsSinceBase <- getCommitsSinceRef execSync baseBranch ;;
  commitsWithMessages <- mapThrowing commitWithMessage commitsSinceBase ;;
  let changelogMessagesWithAssociatedCommits :=
    associateCommitsToConventionalCommitMessages commitsWithMessages in
  changesets <- conventionalMessagesWithCommitsToChangesets stringMatch execSync
                  changelogMessagesWithAssociatedCommits
                  (mkOptions (Some ignoredFiles) packages None) ;;
  Some (newChangesets changesets currentChangesets).

End Script.

Arguments conventionalCommitChangeset {RegExpObject} stringMatch execSync changesetConfig
  ignoredFiles workspacePackages currentChangesets.

(* ================================================================== *)
(** * The earlier classifier *)
(* ================================================================== *)

(** [determineReleaseType] of the earlier version of the module, kept
    beside its test file: major for a breaking change, minor for a
    message that starts with [feat], patch otherwise. *)
Definition determineReleaseTypeLegacy (changelogMessage : string) : ReleaseType :=
  if isBreakingChange changelogMessage then major
  else if startsWith changelogMessage "feat" then minor
  else patch.

(* ================================================================== *)
(** * Further notions used in the statements *)
(* ================================================================== *)

(** The messages of the units of a commit sequence: those of its
    conventional commits, or that of its first commit when it has none. *)
Definition unitMessages (commits : list Commit) : list string :=
  match filter (fun c => isConventionalCommit (commitMessage c)) commits with
  | [] =>
      match commits with
      | [] => []
      | c :: _ => [commitMessage c]
      end
  | conventional => map commitMessage conventional
  end.

(** The unit [v] starts at a conventional commit of [commits]: it has
    the message of that commit and its first hash is the hash of that
    commit. *)
Definition startsAtConventional (commits : list Commit) (v : ConventionalMessagesToCommits)
  : Prop :=
  exists c,
    In c commits
    /\ isConventionalCommit (commitMessage c) = true
    /\ changelogMessage v = commitMessage c
    /\ hd_error (commitHashes v) = Some (commitHash c).

(** A scope as [getCommitType] reads it: nothing, or a non-empty text
    without a line break between parentheses. *)
Definition scopeText (scope : string) : Prop :=
  scope = ""
  \/ exists body,
       body <> "" /\ allMatch ADot body = true /\ scope = ("(" ++ body ++ ")")%string.

(** A breaking marker: nothing, or [!]. *)
Definition bangText (bang : string) : Prop := bang = "" \/ bang = "!".

(** What follows the type in the pattern of [getCommitType]. *)
Definition afterTypePattern : regex :=
  RSeq (ROpt (RGroup 2 (RSeq (chr "(") (RSeq (RPlus ADot) (chr ")")))))
    (RSeq (ROpt (RGroup 3 (chr "!"))) (chr ":")).

(** The text holds no line feed. *)
Fixpoint noLineFeed (s : string) : bool :=
  match s with
  | EmptyString => true
  | String c s' => negb (Ascii.eqb c LF) && noLineFeed s'
  end.

(** What the script reads in place of an absent [ignore] field. *)
Definition ignoredNames (changesetConfig : Config) : list string :=
  match ignore changesetConfig with
  | Some l => l
  | None => []
  end.

(** A changeset as the assembler emits it for one of [units]. *)
Definition emittedFor {RegExpObject : Type} (options : Options RegExpObject)
    (units : list ConventionalMessagesToCommits) (changeset : Changeset.t) : Prop :=
  Changeset.releases changeset <> []
  /\ sublist (Changeset.packagesChanged changeset) (packages options)
  /\ exists entry releaseType,
       In entry units
       /\ Changeset.summary changeset = changelogMessage entry
       /\ determineReleaseType (changelogMessage entry) (releaseRules options)
          = Some releaseType
       /\ Changeset.releases changeset =
            map (fun pkg =>
                   Release.mk (PackageJson.name (ManyPkgPackage.packageJson pkg)) releaseType)
              (Changeset.packagesChanged changeset).

(** The command [getFilesChangedSince] runs for a unit. *)
Definition diffCommand (entry : ConventionalMessagesToCommits) : string :=
  ("git diff --name-only " ++ hashAt 0 (commitHashes entry) ++ "~1..."
     ++ hashAt (length (commitHashes entry) - 1) (commitHashes entry))%string.

(** The first character of a text, when it has one, is none of the word
    characters. *)
Definition startsOffWord (s : string) : bool :=
  match s with
  | EmptyString => false
  | String c _ => negb (isWordChar c)
  end.

(** A repository on its base branch, without tags: two commits since the
    first one, the older one conventional. *)
Definition mockedGit (command : string) : option string :=
  if includes command "git fetch" then Some ""
  else if includes command "--abbrev-ref" then Some ("main" ++ newline)%string
  else if includes command "git describe" then None
  else if includes command "--max-parents=0" then Some ("root000" ++ newline)%string
  else if includes command "--ancestry-path" then
    Some ("hash2" ++ newline ++ "hash1" ++ newline)%string
  else if includes command "git log" then
    if includes command "hash1" then Some "feat: add new feature" else Some "wip"
  else mockedExecSync command.

Definition sampleConfig : Config := mkConfig None (Some ["package2"]).

(* ================================================================== *)
(** * Properties of the commit grouper *)
(* ================================================================== *)

Section Lists.

Variable A : Type.

Lemma firstn_all_but_last (l : list A) (x : A) :
  firstn (length (l ++ [x]) - 1) (l ++ [x]) = l.
Proof.
  rewrite length_app; simpl.
  replace (length l + 1 - 1) with (length l + 0) by lia.
  rewrite firstn_app_2. simpl. apply app_nil_r.
Qed.

Lemma nth_last (l : list A) (x d : A) :
  nth (length (l ++ [x]) - 1) (l ++ [x]) d = x.
Proof.
  rewrite length_app; simpl.
  replace (length l + 1 - 1) with (length l) by lia.
  apply nth_middle.
Qed.

Lemma snoc_cases (l : list A) :
  l = [] \/ exists init x, l = init ++ [x].
Proof.
  induction l using rev_ind; [ now left | right; eauto ].
Qed.

Lemma find_snoc (f : A -> bool) (l : list A) (x : A) :
  find f (l ++ [x]) =
    match find f l with
    | Some y => Some y
    | None => if f x then Some x else None
    end.
Proof.
  induction l as [ | y l IH ]; simpl; [ reflexivity | ].
  now destruct (f y).
Qed.

Lemma existsb_snoc (f : A -> bool) (l : list A) (x : A) :
  existsb f (l ++ [x]) = existsb f l || f x.
Proof. rewrite existsb_app. simpl. now rewrite orb_false_r. Qed.

End Lists.

Arguments snoc_cases {A} l.

Section Grouper.

Lemma associate_first (c : Commit) :
  associate [] c = [ mkUnit (commitMessage c) [commitHash c] ].
Proof. reflexivity. Qed.

(** The reducer on a non-empty accumulator, by cases. *)
Lemma associate_next (earlier : list ConventionalMessagesToCommits)
    (lastUnit : ConventionalMessagesToCommits) (c : Commit) :
  associate (earlier ++ [lastUnit]) c =
    if isConventionalCommit (commitMessage c) then
      if isConventionalCommit (changelogMessage lastUnit) then
        earlier ++ [ lastUnit; mkUnit (commitMessage c) [commitHash c] ]
      else
        earlier ++ [ mkUnit (commitMessage c) (commitHashes lastUnit ++ [commitHash c]) ]
    else
      earlier ++ [ mkUnit (changelogMessage lastUnit) (commitHashes lastUnit ++ [commitHash c]) ].
Proof.
  unfold associate.
  rewrite firstn_all_but_last, nth_last.
  replace (Nat.eqb (length (earlier ++ [lastUnit])) 0) with false
    by (rewrite length_app; simpl; symmetry; apply Nat.eqb_neq; lia).
  destruct (isConventionalCommit (commitMessage c)); [ | reflexivity ].
  destruct (isConventionalCommit (changelogMessage lastUnit)); [ | reflexivity ].
  now rewrite <- app_assoc.
Qed.

Lemma group_snoc (before : list Commit) (c : Commit) :
  associateCommitsToConventionalCommitMessages (before ++ [c]) =
    associate (associateCommitsToConventionalCommitMessages before) c.
Proof.
  unfold associateCommitsToConventionalCommitMessages. now rewrite fold_left_app.
Qed.

Lemma associate_not_nil (acc : list ConventionalMessagesToCommits) (c : Commit) :
  associate acc c <> [].
Proof.
  destruct (snoc_cases acc) as [ -> | (earlier & lastUnit & ->) ].
  - discriminate.
  - rewrite associate_next.
    destruct (isConventionalCommit (commitMessage c));
      [ destruct (isConventionalCommit (changelogMessage lastUnit)) | ];
      intros E; apply app_eq_nil in E; destruct E as [ _ E ]; discriminate.
Qed.

Lemma group_not_nil (commits : list Commit) :
  commits <> [] -> associateCommitsToConventionalCommitMessages commits <> [].
Proof.
  destruct (snoc_cases commits) as [ -> | (before & c & ->) ]; [ congruence | ].
  intros _. rewrite group_snoc. apply associate_not_nil.
Qed.

(** Every step appends the hash of its commit to the hashes gathered so far. *)
Lemma associate_hashes (acc : list ConventionalMessagesToCommits) (c : Commit) :
  concat (map commitHashes (associate acc c)) =
    concat (map commitHashes acc) ++ [commitHash c].
Proof.
  destruct (snoc_cases acc) as [ -> | (earlier & lastUnit & ->) ]; [ reflexivity | ].
  rewrite associate_next.
  destruct (isConventionalCommit (commitMessage c));
    [ destruct (isConventionalCommit (changelogMessage lastUnit)) | ];
    rewrite !map_app, !concat_app; simpl; rewrite ?app_nil_r, <- ?app_assoc; reflexivity.
Qed.

Lemma associate_hashes_not_nil (acc : list ConventionalMessagesToCommits) (c : Commit) :
  Forall (fun u => commitHashes u <> []) acc ->
  Forall (fun u => commitHashes u <> []) (associate acc c).
Proof.
  intros H.
  destruct (snoc_cases acc) as [ -> | (earlier & lastUnit & ->) ].
  - rewrite associate_first. constructor; [ discriminate | constructor ].
  - rewrite associate_next.
    apply Forall_app in H. destruct H as [ He Hl ].
    destruct (isConventionalCommit (commitMessage c));
      [ destruct (isConventionalCommit (changelogMessage lastUnit)) | ];
      apply Forall_app; split; trivial.
    + inversion Hl; subst. repeat constructor; trivial. discriminate.
    + repeat constructor. simpl. intros E. apply app_eq_nil in E. destruct E; discriminate.
    + repeat constructor. simpl. intros E. apply app_eq_nil in E. destruct E; discriminate.
Qed.

(** The message of the first unit is conventional exactly when some
    commit is. *)
Lemma firstUnitMessage_conventional (first : Commit) (others : list Commit) :
  isConventionalCommit (firstUnitMessage first others) =
    existsb (fun c => isConventionalCommit (commitMessage c)) (first :: others).
Proof.
  unfold firstUnitMessage.
  destruct (find _ (first :: others)) as [ c | ] eqn:E.
  - apply find_some in E. destruct E as [ Hin Hc ]. rewrite Hc. symmetry.
    apply existsb_exists. eauto.
  - assert (H := find_none _ _ E).
    rewrite (H first) by now left. symmetry.
    apply not_true_is_false. intros Hex. apply existsb_exists in Hex.
    destruct Hex as (c & Hin & Hc). rewrite (H c Hin) in Hc. discriminate.
Qed.

Lemma firstUnitMessage_snoc (first : Commit) (others : list Commit) (c : Commit) :
  firstUnitMessage first (others ++ [c]) =
    if existsb (fun c => isConventionalCommit (commitMessage c)) (first :: others)
    then firstUnitMessage first others
    else if isConventionalCommit (commitMessage c) then commitMessage c
         else firstUnitMessage first others.
Proof.
  rewrite <- firstUnitMessage_conventional.
  unfold firstUnitMessage.
  change (first :: others ++ [c]) with ((first :: others) ++ [c]).
  rewrite find_snoc.
  destruct (find _ (first :: others)) as [ d | ] eqn:E.
  - apply find_some in E. destruct E as [ _ Hd ]. now rewrite Hd.
  - assert (H := find_none _ _ E). rewrite (H first) by now left.
    now destruct (isConventionalCommit (commitMessage c)).
Qed.

(** What holds of the first unit after every step. *)
Lemma first_unit_invariant (first : Commit) (others : list Commit) :
  exists u rest,
    associateCommitsToConventionalCommitMessages (first :: others) = u :: rest
    /\ changelogMessage u = firstUnitMessage first others
    /\ hd_error (commitHashes u) = Some (commitHash first)
    /\ (rest <> [] ->
        existsb (fun c => isConventionalCommit (commitMessage c)) (first :: others) = true).
Proof.
  induction others as [ | c others IH ] using rev_ind.
  - exists (mkUnit (commitMessage first) [commitHash first]), [].
    repeat split; try congruence.
    unfold firstUnitMessage; simpl.
    now destruct (isConventionalCommit (commitMessage first)).
  - destruct IH as (u & rest & Hg & Hm & Hh & Hr).
    change (first :: others ++ [c]) with ((first :: others) ++ [c]).
    rewrite group_snoc, Hg, firstUnitMessage_snoc, existsb_snoc.
    remember (existsb (fun c => isConventionalCommit (commitMessage c)) (first :: others))
      as seen eqn:Hseen.
    assert (Hu : isConventionalCommit (changelogMessage u) = seen)
      by (rewrite Hm, Hseen; apply firstUnitMessage_conventional).
    destruct (snoc_cases rest) as [ -> | (mid & lastUnit & ->) ].
    + change [u] with ([] ++ [u]). rewrite associate_next, Hu.
      destruct (isConventionalCommit (commitMessage c)) eqn:Hc; destruct seen;
        cbn [app]; eexists; eexists; (split; [ reflexivity | ]);
        cbn [changelogMessage commitHashes];
        repeat split; trivial; try congruence;
        destruct (commitHashes u); simpl in *; congruence.
    + assert (Hs : seen = true)
        by (apply Hr; intros E; apply app_eq_nil in E; destruct E; discriminate).
      rewrite Hs.
      change (u :: mid ++ [lastUnit]) with ((u :: mid) ++ [lastUnit]).
      rewrite associate_next.
      destruct (isConventionalCommit (commitMessage c));
        [ destruct (isConventionalCommit (changelogMessage lastUnit)) | ];
        cbn [app]; eexists; eexists; (split; [ reflexivity | ]); repeat split; trivial.
Qed.

End Grouper.

(** C1.  Every commit after the first is handled by one of three rules,
    chosen by whether its message and the message of the current last
    unit are conventional: a conventional commit after a conventional
    unit starts a new unit holding its own hash only; a conventional
    commit after a unit that is not conventional gives that unit its
    message and adds its hash to it; a commit that is not conventional
    adds its hash to the last unit and leaves the message alone. *)
Theorem grouper_three_rules (before : list Commit) (c : Commit) :
  before <> [] ->
  exists earlier lastUnit,
    associateCommitsToConventionalCommitMessages before = earlier ++ [lastUnit]
    /\ (isConventionalCommit (commitMessage c) = true ->
        isConventionalCommit (changelogMessage lastUnit) = true ->
        associateCommitsToConventionalCommitMessages (before ++ [c]) =
          earlier ++ [ lastUnit; mkUnit (commitMessage c) [commitHash c] ])
    /\ (isConventionalCommit (commitMessage c) = true ->
        isConventionalCommit (changelogMessage lastUnit) = false ->
        associateCommitsToConventionalCommitMessages (before ++ [c]) =
          earlier ++ [ mkUnit (commitMessage c) (commitHashes lastUnit ++ [commitHash c]) ])
    /\ (isConventionalCommit (commitMessage c) = false ->
        associateCommitsToConventionalCommitMessages (before ++ [c]) =
          earlier ++ [ mkUnit (changelogMessage lastUnit)
                         (commitHashes lastUnit ++ [commitHash c]) ]).
Proof.
  intros Hne.
  destruct (snoc_cases (associateCommitsToConventionalCommitMessages before))
    as [ E | (earlier & lastUnit & E) ].
  - now apply group_not_nil in E.
  - exists earlier, lastUnit. split; [ exact E | ].
    rewrite group_snoc, E, associate_next.
    repeat split; intros; repeat match goal with H : _ = _ |- _ => rewrite H end; reflexivity.
Qed.

Lemma grouper_three_rules_witness :
  exists earlier lastUnit,
    associateCommitsToConventionalCommitMessages wipThenFeat = earlier ++ [lastUnit]
    /\ (isConventionalCommit "fix: bug Y" = true ->
        isConventionalCommit (changelogMessage lastUnit) = true ->
        associateCommitsToConventionalCommitMessages (wipThenFeat ++ [mkCommit "hash3" "fix: bug Y"]) =
          earlier ++ [ lastUnit; mkUnit "fix: bug Y" ["hash3"] ])
    /\ (isConventionalCommit "fix: bug Y" = true ->
        isConventionalCommit (changelogMessage lastUnit) = false ->
        associateCommitsToConventionalCommitMessages (wipThenFeat ++ [mkCommit "hash3" "fix: bug Y"]) =
          earlier ++ [ mkUnit "fix: bug Y" (commitHashes lastUnit ++ ["hash3"]) ])
    /\ (isConventionalCommit "fix: bug Y" = false ->
        associateCommitsToConventionalCommitMessages (wipThenFeat ++ [mkCommit "hash3" "fix: bug Y"]) =
          earlier ++ [ mkUnit (changelogMessage lastUnit) (commitHashes lastUnit ++ ["hash3"]) ]).
Proof.
  apply (grouper_three_rules wipThenFeat (mkCommit "hash3" "fix: bug Y")).
  unfold wipThenFeat. discriminate.
Defined.

(** C5, as the code has it.  For a sequence that starts with [first], the
    first unit exists and its hashes start with the hash of [first]; its
    message is the message of [first] when that message is conventional,
    and otherwise the message of the first conventional commit after it,
    or the message of [first] when no commit is conventional. *)
Theorem first_unit_message (first : Commit) (others : list Commit) :
  exists u rest,
    associateCommitsToConventionalCommitMessages (first :: others) = u :: rest
    /\ hd_error (commitHashes u) = Some (commitHash first)
    /\ changelogMessage u =
         if isConventionalCommit (commitMessage first) then commitMessage first
         else match find (fun c => isConventionalCommit (commitMessage c)) others with
              | Some c => commitMessage c
              | None => commitMessage first
              end.
Proof.
  destruct (first_unit_invariant first others) as (u & rest & Hg & Hm & Hh & _).
  exists u, rest. repeat split; trivial.
  rewrite Hm. unfold firstUnitMessage. simpl.
  now destruct (isConventionalCommit (commitMessage first)).
Qed.

(** C5, as stated, fails on a commit that is not conventional followed by
    a conventional one: the only unit carries the message of the second
    commit, not of the first. *)
Lemma first_unit_message_counterexample :
  associateCommitsToConventionalCommitMessages wipThenFeat =
    [ mkUnit "feat: add X" ["hash1"; "hash2"] ]
  /\ hd_error (map commitMessage wipThenFeat) = Some "wip"
  /\ hd_error (map changelogMessage (associateCommitsToConventionalCommitMessages wipThenFeat))
       <> hd_error (map commitMessage wipThenFeat).
Proof.
  repeat split; try reflexivity. vm_compute. discriminate.
Qed.

(** C10.  The units partition the commits: their hash lists, put end to
    end, are the hashes of the commits in order; no unit has an empty
    hash list; and no commit gives no unit. *)
Theorem grouper_keeps_every_hash (commits : list Commit) :
  concat (map commitHashes (associateCommitsToConventionalCommitMessages commits)) =
    map commitHash commits
  /\ Forall (fun u => commitHashes u <> [])
       (associateCommitsToConventionalCommitMessages commits)
  /\ associateCommitsToConventionalCommitMessages [] = [].
Proof.
  split; [ | split; [ | reflexivity ] ].
  - induction commits as [ | c before IH ] using rev_ind; [ reflexivity | ].
    now rewrite group_snoc, associate_hashes, IH, map_app.
  - induction commits as [ | c before IH ] using rev_ind; [ constructor | ].
    rewrite group_snoc. now apply associate_hashes_not_nil.
Qed.

(* ================================================================== *)
(** * JSON.stringify determines the release list *)
(* ================================================================== *)

Section Strings.

Lemma append_assoc (a b c : string) : ((a ++ b) ++ c = a ++ (b ++ c))%string.
Proof. induction a as [ | x a IH ]; simpl; [ reflexivity | now rewrite IH ]. Qed.

Lemma append_inv_head (a x y : string) : (a ++ x = a ++ y)%string -> x = y.
Proof.
  induction a as [ | c a IH ]; simpl; [ trivial | ].
  intros E. injection E as E. now apply IH.
Qed.

End Strings.

Module JSONFacts.
Import JSON.

Lemma unquoteChar_quoteChar (c : ascii) (r : string) :
  unquoteChar (quoteChar c ++ r) = Some (c, r).
Proof.
  destruct c as [ [ | ] [ | ] [ | ] [ | ] [ | ] [ | ] [ | ] [ | ] ]; reflexivity.
Qed.

Lemma quoteBody_inj (s s' r r' : string) :
  (quoteBody s ++ String DQUOTE r = quoteBody s' ++ String DQUOTE r')%string ->
  s = s' /\ r = r'.
Proof.
  revert s'. induction s as [ | c s IH ]; intros [ | c' s' ]; simpl; intros E.
  - injection E as E. now split.
  - rewrite append_assoc in E. apply (f_equal unquoteChar) in E.
    rewrite unquoteChar_quoteChar in E. discriminate.
  - rewrite append_assoc in E. apply (f_equal unquoteChar) in E.
    rewrite unquoteChar_quoteChar in E. discriminate.
  - rewrite !append_assoc in E. apply (f_equal unquoteChar) in E.
    rewrite !unquoteChar_quoteChar in E. injection E as Ec E.
    destruct (IH _ E) as [ -> -> ]. now subst.
Qed.

Lemma quote_inj (s s' r r' : string) :
  (quote s ++ r = quote s' ++ r')%string -> s = s' /\ r = r'.
Proof.
  unfold quote. simpl. rewrite !append_assoc. simpl.
  intros E. injection E as E. now apply quoteBody_inj.
Qed.

Lemma releaseTypeName_inj (t t' : ReleaseType) :
  releaseTypeName t = releaseTypeName t' -> t = t'.
Proof. destruct t, t'; simpl; congruence. Qed.

Lemma stringifyRelease_inj (a b : Release.t) (r r' : string) :
  (stringifyRelease a ++ r = stringifyRelease b ++ r')%string -> a = b /\ r = r'.
Proof.
  destruct a as [ na ta ], b as [ nb tb ]. unfold stringifyRelease.
  cbn [Release.name Release.type]. rewrite !append_assoc. intros E.
  do 3 apply append_inv_head in E.
  apply quote_inj in E. destruct E as [ -> E ].
  do 3 apply append_inv_head in E.
  apply quote_inj in E. destruct E as [ Et E ].
  apply releaseTypeName_inj in Et. apply append_inv_head in E.
  now subst.
Qed.

Lemma stringifyElements_cons (a : Release.t) (rest : list Release.t) (tail : string) :
  (stringifyElements (a :: rest) ++ tail = stringifyRelease a ++ afterFirst rest tail)%string.
Proof.
  destruct rest as [ | b rest ]; [ reflexivity | ].
  cbn [stringifyElements afterFirst]. now rewrite !append_assoc.
Qed.

Lemma stringifyElements_inj (rs rs' : list Release.t) :
  (stringifyElements rs ++ "]" = stringifyElements rs' ++ "]")%string -> rs = rs'.
Proof.
  revert rs'. induction rs as [ | a rs IH ]; intros [ | b rs' ].
  - reflexivity.
  - rewrite stringifyElements_cons. discriminate.
  - rewrite stringifyElements_cons. discriminate.
  - rewrite !stringifyElements_cons. intros E.
    apply stringifyRelease_inj in E. destruct E as [ -> E ].
    destruct rs as [ | a' rs ], rs' as [ | b' rs' ]; simpl in E.
    + reflexivity.
    + discriminate.
    + discriminate.
    + injection E as E. f_equal. now apply IH.
Qed.

Lemma stringify_inj (rs rs' : list Release.t) :
  stringify rs = stringify rs' -> rs = rs'.
Proof.
  unfold stringify. simpl. intros E. injection E as E.
  now apply stringifyElements_inj.
Qed.

End JSONFacts.

(* ================================================================== *)
(** * Properties of the deduplication *)
(* ================================================================== *)

Section Dedup.

(** Stripping changes a text exactly when it ends with a newline. *)
Lemma stripTrailingNewline_changes (s : string) :
  stripTrailingNewline s <> s <-> exists p, s = (p ++ newline)%string.
Proof.
  induction s as [ | c s IH ]; simpl.
  - split; [ congruence | intros ([ | d p ] & E); discriminate ].
  - destruct (Ascii.eqb c LF && String.eqb s "") eqn:E.
    + apply andb_true_iff in E. destruct E as [ Ec Es ].
      apply Ascii.eqb_eq in Ec. apply String.eqb_eq in Es. subst.
      split; [ intros _; now exists "" | discriminate ].
    + split.
      * intros H. destruct IH as [ IH _ ].
        destruct IH as (p & ->); [ congruence | ]. now exists (String c p).
      * intros ([ | d p ] & Ep); simpl in Ep; injection Ep as -> ->.
        { unfold LF in E. simpl in E. discriminate. }
        intros H. injection H as H. revert H. apply IH. now exists p.
Qed.

Lemma compareChangeSet_true (a b : Changeset.t) :
  compareChangeSet a b = true <->
    stripTrailingNewline (Changeset.summary a) = Changeset.summary b
    /\ Changeset.releases a = Changeset.releases b.
Proof.
  unfold compareChangeSet. rewrite andb_true_iff, !String.eqb_eq.
  split; intros [ Hs Hr ]; split; trivial.
  - now apply JSONFacts.stringify_inj.
  - now rewrite Hr.
Qed.

Lemma filter_nil_iff (A : Type) (f : A -> bool) (l : list A) :
  filter f l = [] <-> forall x, In x l -> f x = false.
Proof.
  induction l as [ | y l IH ]; simpl.
  - split; [ intros _ x [] | reflexivity ].
  - destruct (f y) eqn:E; split.
    + discriminate.
    + intros H. rewrite (H y) in E by now left. discriminate.
    + intros H x [ <- | Hin ]; [ exact E | now apply IH ].
    + intros H. apply IH. intros x Hin. apply H. now right.
Qed.

Lemma difference_nil_r (a : list Changeset.t) : difference a [] = a.
Proof.
  unfold difference. simpl. induction a as [ | x a IH ]; simpl; [ | rewrite IH ]; reflexivity.
Qed.

Lemma newChangesets_difference (changesets currentChangesets : list Changeset.t) :
  newChangesets changesets currentChangesets = difference changesets currentChangesets.
Proof.
  unfold newChangesets. destruct currentChangesets as [ | b rest ]; simpl.
  - symmetry. apply difference_nil_r.
  - reflexivity.
Qed.

End Dedup.

(** C3, as the code has it.  When the survivors of one run are added to
    the baseline in their stored form, which keeps the releases of a
    survivor and holds its summary with the one trailing newline
    stripped, a second comparison of the same candidates against the
    augmented baseline leaves nothing new.  The summaries themselves may
    end with a newline, as the commit bodies that git prints do. *)
Theorem dedup_idempotent (stored : Changeset.t -> Changeset.t)
    (changesets currentChangesets : list Changeset.t) :
  (forall c, In c (newChangesets changesets currentChangesets) ->
     Changeset.summary (stored c) = stripTrailingNewline (Changeset.summary c)
     /\ Changeset.releases (stored c) = Changeset.releases c) ->
  difference changesets
    (currentChangesets ++ map stored (newChangesets changesets currentChangesets)) = [].
Proof.
  intros Hstored. unfold difference at 1. apply filter_nil_iff. intros c Hin.
  apply negb_false_iff. rewrite existsb_app. apply orb_true_iff.
  destruct (existsb (fun changeB => compareChangeSet c changeB) currentChangesets) eqn:E;
    [ now left | right ].
  assert (Hnew : In c (newChangesets changesets currentChangesets)).
  { rewrite newChangesets_difference. unfold difference. apply filter_In.
    split; [ exact Hin | now rewrite E ]. }
  apply existsb_exists. exists (stored c). split; [ now apply in_map | ].
  apply compareChangeSet_true. destruct (Hstored c Hnew) as [ Hs Hr ]. now split.
Qed.

Lemma dedup_idempotent_witness :
  Changeset.summary fixWithNewline = ("fix: fix a bug" ++ newline)%string
  /\ difference [fixWithNewline]
       ([] ++ map withoutTrailingNewline (newChangesets [fixWithNewline] [])) = [].
Proof.
  split; [ reflexivity | ].
  apply (dedup_idempotent withoutTrailingNewline [fixWithNewline] []).
  intros c _. split; reflexivity.
Defined.

(** C3, as stated, fails for a candidate whose summary ends with a
    newline: it is not equal to itself, so it is new again. *)
Lemma dedup_idempotent_counterexample :
  difference [fixWithNewline] ([] ++ newChangesets [fixWithNewline] []) = [fixWithNewline].
Proof. reflexivity. Qed.

(** C4, as the code has it.  Two changesets are equal for the
    deduplication exactly when the summary of the first, with one
    trailing newline stripped, is the summary of the second as it
    stands, and their release lists are the same, element by element. *)
Theorem compareChangeSet_iff (a b : Changeset.t) :
  compareChangeSet a b = true <->
    stripTrailingNewline (Changeset.summary a) = Changeset.summary b
    /\ Changeset.releases a = Changeset.releases b.
Proof. apply compareChangeSet_true. Qed.

(** C4, as stated, fails when only the second summary ends with a
    newline: the summaries agree once stripped and the releases are the
    same, yet the comparison says the changesets differ. *)
Lemma compareChangeSet_counterexample :
  stripTrailingNewline (Changeset.summary fixWithoutNewline) =
    stripTrailingNewline (Changeset.summary fixWithNewline)
  /\ Changeset.releases fixWithoutNewline = Changeset.releases fixWithNewline
  /\ compareChangeSet fixWithoutNewline fixWithNewline = false.
Proof. repeat split. Qed.

(** C9.  Against an empty baseline the difference keeps every candidate,
    so choosing the candidates outright when nothing is persisted gives
    what the comparison would have given. *)
Theorem skip_comparison_same_result (changesets currentChangesets : list Changeset.t) :
  difference changesets [] = changesets
  /\ newChangesets changesets currentChangesets = difference changesets currentChangesets.
Proof.
  split; [ apply difference_nil_r | apply newChangesets_difference ].
Qed.

(* ================================================================== *)
(** * The matcher decides the language of an expression *)
(* ================================================================== *)

Module RegExpFacts.

Lemma length_append (a b : string) :
  String.length (a ++ b) = String.length a + String.length b.
Proof. induction a as [ | c a IH ]; simpl; [ reflexivity | now rewrite IH ]. Qed.

Lemma dropPrefix_append (p rest : string) : dropPrefix p (p ++ rest) = Some rest.
Proof.
  induction p as [ | c p IH ]; simpl; [ reflexivity | ].
  now rewrite Ascii.eqb_refl.
Qed.

Lemma dropPrefix_Some (p s rest : string) :
  dropPrefix p s = Some rest -> s = (p ++ rest)%string.
Proof.
  revert s. induction p as [ | c p IH ]; intros s; simpl.
  - congruence.
  - destruct s as [ | d s ]; [ discriminate | ].
    destruct (Ascii.eqb c d) eqn:E; [ | discriminate ].
    apply Ascii.eqb_eq in E. subst d. intros H. now rewrite (IH _ H).
Qed.

Lemma consumed_append (p rest : string) : consumed (p ++ rest) rest = p.
Proof.
  unfold consumed. rewrite length_append.
  replace (String.length p + String.length rest - String.length rest)
    with (String.length p) by lia.
  induction p as [ | c p IH ]; simpl.
  - now destruct rest.
  - now rewrite IH.
Qed.

Lemma allMatch_append (a : atom) (p q : string) :
  allMatch a (p ++ q) = allMatch a p && allMatch a q.
Proof.
  induction p as [ | c p IH ]; simpl; [ reflexivity | ].
  now rewrite IH, andb_assoc.
Qed.

Section Matcher.

Variable R : Type.

Lemma star_sound (a : atom) (s : string) (k : string -> option R) (m : R) :
  star a s k = Some m ->
  exists p rest, s = (p ++ rest)%string /\ allMatch a p = true /\ k rest = Some m.
Proof.
  induction s as [ | c s IH ]; simpl; intros H.
  - exists "", "". auto.
  - destruct (atomMatch a c) eqn:Ha.
    + destruct (star a s k) as [ m' | ] eqn:Hs.
      * destruct (IH H) as (p & rest & -> & Hp & Hk).
        exists (String c p), rest. simpl. rewrite Ha. auto.
      * exists "", (String c s). auto.
    + exists "", (String c s). auto.
Qed.

Lemma star_complete (a : atom) (p rest : string) (k : string -> option R) :
  allMatch a p = true -> k rest <> None -> star a (p ++ rest) k <> None.
Proof.
  induction p as [ | c p IH ]; simpl; intros Hp Hk.
  - destruct rest as [ | d rest ]; simpl; trivial.
    destruct (atomMatch a d); trivial. now destruct (star a rest k).
  - apply andb_true_iff in Hp. destruct Hp as [ Hc Hp ]. rewrite Hc.
    specialize (IH Hp Hk). now destruct (star a (p ++ rest) k).
Qed.

Lemma star_none (a : atom) (s : string) (k k' : string -> option R) :
  (forall s', k s' = None -> k' s' = None) ->
  star a s k = None -> star a s k' = None.
Proof.
  intros Hk. induction s as [ | c s IH ]; simpl; [ apply Hk | ].
  destruct (atomMatch a c); [ | apply Hk ].
  destruct (star a s k); [ discriminate | ].
  intros H. rewrite IH by reflexivity. now apply Hk.
Qed.

(** Failure of the matcher does not depend on the captures. *)
Lemma run_none (r : regex) :
  forall (s : string) (c c' : captures) (k k' : string -> captures -> option R),
    (forall s' d d', k s' d = None -> k' s' d' = None) ->
    run r s c k = None -> run r s c' k' = None.
Proof.
  induction r as [ a | p | a | a | r IH | r1 IH1 r2 IH2 | n r IH ];
    intros s c c' k k' Hk; simpl.
  - destruct s as [ | x s ]; trivial. destruct (atomMatch a x); eauto.
  - destruct (dropPrefix p s); eauto.
  - apply star_none. eauto.
  - destruct s as [ | x s ]; trivial. destruct (atomMatch a x); trivial.
    apply star_none. eauto.
  - destruct (run r s c _) eqn:E; [ discriminate | ].
    intros H. erewrite IH; [ eauto | | exact E ].
    intros s' d d'. simpl. destruct (Nat.eqb _ _); eauto.
  - apply IH1. intros s' d d'. now apply IH2.
  - apply IH. eauto.
Qed.

Lemma run_blind (r : regex) (k : string -> captures -> option R) :
  blind k -> blind (fun s c => run r s c k).
Proof. intros Hk s c c'. now apply run_none. Qed.

(** Whatever the matcher returns comes from the continuation, run on
    what is left after a text of the language; captures of groups
    that are not in the expression are left alone. *)
Lemma run_sound (r : regex) :
  forall (s : string) (c : captures) (k : string -> captures -> option R) (m : R),
    run r s c k = Some m ->
    exists p rest c',
      s = (p ++ rest)%string /\ matches r p /\ k rest c' = Some m
      /\ (forall n, hasGroup n r = false -> c' n = c n)
      /\ (forall n v, r = RGroup n v -> c' n = Some p).
Proof.
  induction r as [ a | q | a | a | r IH | r1 IH1 r2 IH2 | g r IH ];
    intros s c k m; simpl; intros H.
  - destruct s as [ | x s ]; [ discriminate | ].
    destruct (atomMatch a x) eqn:Ha; [ | discriminate ].
    exists (String x ""), s, c. repeat split; trivial; try discriminate.
    now constructor.
  - destruct (dropPrefix q s) as [ rest | ] eqn:E; [ | discriminate ].
    apply dropPrefix_Some in E. exists q, rest, c.
    repeat split; trivial; try discriminate. constructor.
  - apply star_sound in H. destruct H as (p & rest & -> & Hp & Hk).
    exists p, rest, c. repeat split; trivial; try discriminate. now constructor.
  - destruct s as [ | x s ]; [ discriminate | ].
    destruct (atomMatch a x) eqn:Ha; [ | discriminate ].
    apply star_sound in H. destruct H as (p & rest & -> & Hp & Hk).
    exists (String x p), rest, c. repeat split; trivial; try discriminate.
    now constructor.
  - destruct (run r s c _) as [ m' | ] eqn:E.
    + apply IH in E. destruct E as (p & rest & c' & -> & Hp & Hk & Hc & _).
      destruct (Nat.eqb _ _); [ discriminate | ].
      exists p, rest, c'. repeat split; trivial; try discriminate;
        try congruence. now constructor.
    + exists "", s, c. repeat split; trivial; try discriminate. constructor.
  - apply IH1 in H. destruct H as (p1 & rest1 & c1 & -> & Hp1 & H & Hc1 & _).
    apply IH2 in H. destruct H as (p2 & rest & c2 & -> & Hp2 & H & Hc2 & _).
    exists (p1 ++ p2)%string, rest, c2. rewrite append_assoc.
    repeat split; trivial; try discriminate.
    + now constructor.
    + intros n Hn. apply orb_false_iff in Hn. destruct Hn as [ Hn1 Hn2 ].
      now rewrite Hc2, Hc1.
  - apply IH in H. destruct H as (p & rest & c' & -> & Hp & H & Hc & _).
    exists p, rest, (setCapture g (consumed (p ++ rest) rest) c').
    repeat split; trivial.
    + now constructor.
    + intros n Hn. apply orb_false_iff in Hn. destruct Hn as [ Hn1 Hn2 ].
      unfold setCapture. rewrite Hn1. now apply Hc.
    + intros n v E. injection E as <- _. unfold setCapture.
      now rewrite Nat.eqb_refl, consumed_append.
Qed.

(** The matcher finds a text of the language when the continuation
    accepts what is left after it. *)
Lemma run_complete (r : regex) (p : string) :
  matches r p ->
  forall (rest : string) (c c0 : captures) (k : string -> captures -> option R),
    blind k -> k rest c0 <> None -> run r (p ++ rest) c k <> None.
Proof.
  induction 1 as [ a x Ha | q | a q Hq | a x q Ha Hq | r | r q Hr IH
                 | r1 r2 q1 q2 H1 IH1 H2 IH2 | n r q Hr IH ];
    intros rest c c0 k Hb Hk; simpl.
  - rewrite Ha. intros E. apply Hk. now apply (Hb _ c c0).
  - rewrite dropPrefix_append. intros E. apply Hk. now apply (Hb _ c c0).
  - apply star_complete; trivial. intros E. apply Hk. now apply (Hb _ c c0).
  - rewrite Ha. apply star_complete; trivial.
    intros E. apply Hk. now apply (Hb _ c c0).
  - destruct (run r rest c _); [ discriminate | ].
    intros E. apply Hk. now apply (Hb _ c c0).
  - destruct q as [ | x q ].
    + simpl. destruct (run r rest c _); [ discriminate | ].
      intros E. apply Hk. now apply (Hb _ c c0).
    + match goal with |- context [ run r ?s c ?k' ] => destruct (run r s c k') eqn:E end;
        [ discriminate | exfalso ].
      revert E. apply (IH rest c c0).
      * intros s d d'. destruct (Nat.eqb _ _); [ reflexivity | apply Hb ].
      * replace (Nat.eqb (String.length rest) (String.length (String x q ++ rest)))
          with false; [ exact Hk | ].
        symmetry. apply Nat.eqb_neq. simpl. rewrite length_append. lia.
  - rewrite append_assoc. apply (IH1 _ c c0).
    + now apply run_blind.
    + now apply (IH2 _ c0 c0).
  - apply (IH _ c c0).
    + intros s d d'. apply Hb.
    + intros E. apply Hk. revert E. apply Hb.
Qed.

End Matcher.

(** [test] holds exactly of the texts with a prefix in the language. *)
Lemma test_true_iff (r : regex) (s : string) :
  test r s = true <-> exists p rest, s = (p ++ rest)%string /\ matches r p.
Proof.
  unfold test, matchStart. split.
  - destruct (run r s noCaptures _) as [ m | ] eqn:E; [ intros _ | discriminate ].
    apply run_sound in E. destruct E as (p & rest & _ & -> & Hp & _). eauto.
  - intros (p & rest & -> & Hp).
    destruct (run r (p ++ rest) noCaptures _) eqn:E; [ reflexivity | exfalso ].
    revert E. apply (run_complete _ r p Hp rest noCaptures noCaptures).
    + intros s d d'. discriminate.
    + discriminate.
Qed.

End RegExpFacts.

(* ================================================================== *)
(** * Properties of the message predicates and of the classifier *)
(* ================================================================== *)

Module PredicateFacts.
Import RegExpFacts.

Ltac inv H := inversion H; subst; clear H.

(** Takes a derivation of [matches] apart, down to the atoms. *)
Ltac split_match :=
  repeat match goal with
    | H : matches (RSeq _ _) _ |- _ => inv H
    | H : matches (RLit _) _ |- _ => inv H
    | H : matches (RAtom _) _ |- _ => inv H
    | H : matches (RGroup _ _) _ |- _ => inv H
    | H : matches (RStar _) _ |- _ => inv H
    | H : matches (RPlus _) _ |- _ => inv H
    | H : matches (ROpt _) _ |- _ => inv H
    | H : matches (chr _) _ |- _ => unfold chr in H
    | H : atomMatch (AChar _) _ = true |- _ => unfold atomMatch in H
    | H : Ascii.eqb _ _ = true |- _ => apply Ascii.eqb_eq in H; subst
    end.

(** The texts [conventionalPattern] matches: the type name, any text
    without a line break, a colon. *)
Lemma conventionalPattern_matches (ty p : string) :
  matches (conventionalPattern ty) p <->
    exists mid, p = (ty ++ mid ++ ":")%string /\ allMatch ADot mid = true.
Proof.
  unfold conventionalPattern. split.
  - intros H. split_match; simpl.
    + exists "". split; reflexivity.
    + eexists. split; [ reflexivity | trivial ].
    + exists "!". split; reflexivity.
    + match goal with H : allMatch ADot ?q = true |- _ => exists (q ++ "!")%string end.
      rewrite append_assoc, allMatch_append. simpl. split; [ reflexivity | ].
      now apply andb_true_iff.
  - intros (mid & -> & Hmid).
    apply matches_seq; [ constructor | ].
    apply matches_seq; [ now do 3 constructor | ].
    apply (matches_seq _ _ "" ":"); [ constructor | now constructor ].
Qed.

Lemma breakingPattern_matches (ty p : string) :
  matches (breakingPattern ty) p <->
    exists mid, p = (ty ++ mid ++ "!:")%string /\ allMatch ADot mid = true.
Proof.
  unfold breakingPattern. split.
  - intros H. split_match; simpl.
    + exists "". split; reflexivity.
    + eexists. split; [ reflexivity | trivial ].
  - intros (mid & -> & Hmid).
    apply matches_seq; [ constructor | ].
    apply matches_seq; [ now do 3 constructor | ].
    apply (matches_seq _ _ "!" ":"); now constructor.
Qed.

(** What the specification's pattern matches is matched by the
    pattern of the code. *)
Lemma conventionalPatternAsSpecified_matches (ty p : string) :
  matches (conventionalPatternAsSpecified ty) p -> matches (conventionalPattern ty) p.
Proof.
  unfold conventionalPatternAsSpecified. intros H.
  apply conventionalPattern_matches. split_match; simpl.
  - exists "". split; reflexivity.
  - match goal with H : allMatch ADot ?q = true |- _ =>
      exists ("(" ++ q ++ ")")%string end.
    rewrite ?append_assoc. simpl. rewrite ?append_assoc. simpl.
    split; [ reflexivity | ]. rewrite allMatch_append. now apply andb_true_iff.
  - exists "!". split; reflexivity.
  - match goal with H : allMatch ADot ?q = true |- _ =>
      exists ("(" ++ q ++ ")!")%string end.
    rewrite ?append_assoc. simpl. rewrite ?append_assoc. simpl.
    split; [ reflexivity | ]. rewrite allMatch_append. now apply andb_true_iff.
Qed.


Lemma test_weaken (r r' : regex) (s : string) :
  (forall p, matches r p -> matches r' p) -> test r s = true -> test r' s = true.
Proof.
  intros H Ht. apply test_true_iff in Ht. destruct Ht as (p & rest & -> & Hp).
  apply test_true_iff. eauto.
Qed.

Lemma existsb_weaken (A : Type) (f g : A -> bool) (l : list A) :
  (forall x, f x = true -> g x = true) -> existsb f l = true -> existsb g l = true.
Proof.
  intros H He. apply existsb_exists in He. destruct He as (x & Hin & Hx).
  apply existsb_exists. eauto.
Qed.

(** Every message the specification calls conventional is conventional
    for the code. *)
Lemma asSpecified_isConventionalCommit (commit : string) :
  isConventionalCommitAsSpecified commit = true -> isConventionalCommit commit = true.
Proof.
  apply existsb_weaken. intros commitType. apply test_weaken.
  apply conventionalPatternAsSpecified_matches.
Qed.


(** The messages the code takes for conventional: a type name, then
    any text without a line break, then a colon. *)
Lemma isConventionalCommit_iff (commit : string) :
  isConventionalCommit commit = true <->
    exists ty mid rest,
      In ty typeNames
      /\ commit = (ty ++ mid ++ ":" ++ rest)%string
      /\ allMatch ADot mid = true.
Proof.
  unfold isConventionalCommit, typeNames. rewrite existsb_exists. split.
  - intros (commitType & Hin & Ht).
    apply test_true_iff in Ht. destruct Ht as (p & rest & -> & Hp).
    apply conventionalPattern_matches in Hp. destruct Hp as (mid & -> & Hmid).
    exists (CommitType.type commitType), mid, rest. split; [ now apply in_map | ].
    split; [ | exact Hmid ]. now rewrite !append_assoc.
  - intros (ty & mid & rest & Hin & -> & Hmid).
    apply in_map_iff in Hin. destruct Hin as (commitType & <- & Hin).
    exists commitType. split; [ exact Hin | ].
    apply test_true_iff. exists (CommitType.type commitType ++ mid ++ ":")%string, rest.
    split; [ now rewrite !append_assoc | ].
    apply conventionalPattern_matches. eauto.
Qed.

Lemma run_seq (R : Type) (r1 r2 : regex) (s : string) (c : captures)
    (k : string -> captures -> option R) :
  run (RSeq r1 r2) s c k = run r1 s c (fun s1 c1 => run r2 s1 c1 k).
Proof. reflexivity. Qed.

(** The extracted type is a non-empty run of word characters at the
    start of the message. *)
Lemma getCommitType_Some (commitMessage ty : string) :
  getCommitType commitMessage = Some ty ->
  ty <> "" /\ allMatch AWord ty = true
  /\ exists rest, commitMessage = (ty ++ rest)%string.
Proof.
  unfold getCommitType, matchStart, commitTypePattern.
  destruct (run _ commitMessage noCaptures _) as [ m | ] eqn:E; [ | discriminate ].
  rewrite run_seq in E. apply run_sound in E.
  destruct E as (p & rest & c' & -> & Hp & E & _ & Hc).
  apply run_sound in E. destruct E as (_ & _ & c'' & _ & _ & E & Hc' & _).
  injection E as <-. rewrite Hc' by reflexivity. rewrite (Hc _ _ eq_refl).
  intros H. injection H as <-. split_match.
  repeat split; [ discriminate | simpl; now apply andb_true_iff | eauto ].
Qed.

Lemma applyReleaseRules_first (changelogMessage commitType : string)
    (releaseRules : list ReleaseRule.t) :
  applyReleaseRules changelogMessage commitType releaseRules =
    firstMatchingRelease changelogMessage commitType releaseRules.
Proof.
  unfold firstMatchingRelease.
  induction releaseRules as [ | rule rest IH ]; simpl; [ reflexivity | ].
  unfold ruleApplies at 1.
  destruct (isSet (ReleaseRule.breaking rule) && isBreakingChange changelogMessage);
    [ reflexivity | ].
  destruct (isSet (ReleaseRule.revert rule) && isRevertChange changelogMessage);
    [ reflexivity | ].
  destruct (typeIs (ReleaseRule.type rule) commitType); [ reflexivity | exact IH ].
Qed.

Lemma determineReleaseType_Some (changelogMessage ty : string)
    (releaseRules : option (list ReleaseRule.t)) :
  getCommitType changelogMessage = Some ty ->
  determineReleaseType changelogMessage releaseRules =
    firstMatchingRelease changelogMessage ty (tableOf releaseRules).
Proof.
  intros H. unfold determineReleaseType. rewrite H.
  apply getCommitType_Some in H. destruct H as [ Hne _ ].
  apply String.eqb_neq in Hne. simpl. rewrite Hne. simpl.
  apply applyReleaseRules_first.
Qed.

Lemma determineReleaseType_None (changelogMessage : string)
    (releaseRules : option (list ReleaseRule.t)) :
  getCommitType changelogMessage = None ->
  determineReleaseType changelogMessage releaseRules = None.
Proof. intros H. unfold determineReleaseType. now rewrite H. Qed.

End PredicateFacts.




(** C6, at a message the claim excludes.  [fixup: typo] has the text
    [up] between the type name [fix] and the colon, so the claim says it
    is not conventional; the predicate of the code accepts it, because
    its pattern allows any text without a line break there. *)
Theorem fixup_is_conventional :
  isConventionalCommit "fixup: typo" = true
  /\ isConventionalCommitAsSpecified "fixup: typo" = false
  /\ (forall commit,
        isConventionalCommit commit = true <->
        exists ty mid rest,
          In ty typeNames
          /\ commit = (ty ++ mid ++ ":" ++ rest)%string
          /\ allMatch ADot mid = true).
Proof.
  split; [ reflexivity | split; [ reflexivity | ] ].
  apply PredicateFacts.isConventionalCommit_iff.
Qed.

(* ================================================================== *)
(** * Properties of the file filter and of the assembler *)
(* ================================================================== *)

Section ThrowingLoops.

Variable A : Type.
Variable f : A -> option bool.

Lemma everyThrowing_true (l : list A) :
  everyThrowing f l = Some true <-> forall x, In x l -> f x = Some true.
Proof.
  induction l as [ | y l IH ]; simpl.
  - split; [ intros _ x [] | reflexivity ].
  - destruct (f y) as [ [ | ] | ] eqn:E.
    + rewrite IH. split; [ intros H x [ <- | Hx ]; auto | auto ].
    + split; [ discriminate | intros H ]. rewrite (H y) in E by now left. discriminate.
    + split; [ discriminate | intros H ]. rewrite (H y) in E by now left. discriminate.
Qed.

Lemma everyThrowing_false (l : list A) :
  everyThrowing f l = Some false -> exists x, In x l /\ f x = Some false.
Proof.
  induction l as [ | y l IH ]; simpl; [ discriminate | ].
  destruct (f y) as [ [ | ] | ] eqn:E; [ | eauto | discriminate ].
  intros H. destruct (IH H) as (x & Hx & Hf). eauto.
Qed.

Lemma everyThrowing_None (l : list A) :
  everyThrowing f l = None -> exists x, In x l /\ f x = None.
Proof.
  induction l as [ | y l IH ]; simpl; [ discriminate | ].
  destruct (f y) as [ [ | ] | ] eqn:E; [ | discriminate | eauto ].
  intros H. destruct (IH H) as (x & Hx & Hf). eauto.
Qed.

Lemma someThrowing_false (l : list A) :
  someThrowing f l = Some false <-> forall x, In x l -> f x = Some false.
Proof.
  induction l as [ | y l IH ]; simpl.
  - split; [ intros _ x [] | reflexivity ].
  - destruct (f y) as [ [ | ] | ] eqn:E.
    + split; [ discriminate | intros H ]. rewrite (H y) in E by now left. discriminate.
    + rewrite IH. split; [ intros H x [ <- | Hx ]; auto | auto ].
    + split; [ discriminate | intros H ]. rewrite (H y) in E by now left. discriminate.
Qed.

Lemma someThrowing_true (l : list A) :
  someThrowing f l = Some true -> exists x, In x l /\ f x = Some true.
Proof.
  induction l as [ | y l IH ]; simpl; [ discriminate | ].
  destruct (f y) as [ [ | ] | ] eqn:E; [ eauto | | discriminate ].
  intros H. destruct (IH H) as (x & Hx & Hf). eauto.
Qed.

Lemma someThrowing_None (l : list A) :
  someThrowing f l = None -> exists x, In x l /\ f x = None.
Proof.
  induction l as [ | y l IH ]; simpl; [ discriminate | ].
  destruct (f y) as [ [ | ] | ] eqn:E; [ discriminate | | eauto ].
  intros H. destruct (IH H) as (x & Hx & Hf). eauto.
Qed.

Lemma filterThrowing_None (l : list A) :
  filterThrowing f l = None <-> exists x, In x l /\ f x = None.
Proof.
  induction l as [ | y l IH ]; simpl.
  - split; [ discriminate | intros (x & [] & _) ].
  - destruct (f y) as [ b | ] eqn:E.
    + destruct (filterThrowing f l) as [ kept | ].
      * split; [ discriminate | ]. intros (x & [ <- | Hx ] & Hf); [ congruence | ].
        destruct IH as [ _ IH ]. assert (H : Some kept = None) by (apply IH; eauto).
        discriminate.
      * split; [ intros _ | reflexivity ].
        destruct IH as [ IH _ ]. destruct (IH eq_refl) as (x & Hx & Hf). eauto.
    + split; [ intros _; eauto | reflexivity ].
Qed.

(** What [filter] returns when no call of the test throws. *)
Lemma filterThrowing_Some (l kept : list A) :
  filterThrowing f l = Some kept ->
  kept = filter (fun x => isMatch (f x)) l /\ forall x, In x l -> f x <> None.
Proof.
  revert kept. induction l as [ | y l IH ]; simpl; intros kept H.
  - injection H as <-. split; [ reflexivity | intros x [] ].
  - destruct (f y) as [ b | ] eqn:E; [ | discriminate ].
    destruct (filterThrowing f l) as [ kept' | ]; [ | discriminate ].
    injection H as <-. destruct (IH kept' eq_refl) as [ -> Hall ]. split.
    + now destruct b.
    + intros x [ <- | Hx ]; [ congruence | now apply Hall ].
Qed.

Lemma filterThrowing_total (l : list A) :
  (forall x, In x l -> f x <> None) ->
  filterThrowing f l = Some (filter (fun x => isMatch (f x)) l).
Proof.
  intros H. destruct (filterThrowing f l) as [ kept | ] eqn:E.
  - apply filterThrowing_Some in E. now destruct E as [ -> _ ].
  - apply filterThrowing_None in E. destruct E as (x & Hx & Hf). now apply H in Hf.
Qed.

End ThrowingLoops.

Section PipelineFacts.

Variable RegExpObject : Type.
Variable stringMatch : string -> pattern RegExpObject -> option bool.
Variable execSync : string -> option string.

Lemma filter_sublist (A : Type) (f : A -> bool) (l : list A) : sublist (filter f l) l.
Proof.
  induction l as [ | x l IH ]; simpl; [ constructor | ].
  destruct (f x); now constructor.
Qed.

Lemma keepsFile_true (ignoredPatterns : list (pattern RegExpObject)) (file : string) :
  keepsFile stringMatch ignoredPatterns file = Some true <->
    forall p, In p ignoredPatterns -> stringMatch file p = Some false.
Proof.
  unfold keepsFile. rewrite everyThrowing_true.
  split; intros H p Hp; specialize (H p Hp).
  - destruct (stringMatch file p) as [ [ | ] | ]; simpl in H; congruence.
  - now rewrite H.
Qed.

Lemma keepsFile_false (ignoredPatterns : list (pattern RegExpObject)) (file : string) :
  keepsFile stringMatch ignoredPatterns file = Some false ->
  exists p, In p ignoredPatterns /\ stringMatch file p = Some true.
Proof.
  unfold keepsFile. intros H. apply everyThrowing_false in H.
  destruct H as (p & Hp & H). exists p. split; [ exact Hp | ].
  destruct (stringMatch file p) as [ [ | ] | ]; simpl in H; congruence.
Qed.

Lemma keepsFile_None (ignoredPatterns : list (pattern RegExpObject)) (file : string) :
  keepsFile stringMatch ignoredPatterns file = None ->
  exists p, In p ignoredPatterns /\ stringMatch file p = None.
Proof.
  unfold keepsFile. intros H. apply everyThrowing_None in H.
  destruct H as (p & Hp & H). exists p. split; [ exact Hp | ].
  destruct (stringMatch file p); [ discriminate | reflexivity ].
Qed.

(** A file passes the test exactly when no pattern matches it. *)
Lemma keepsFile_any (ignoredPatterns : list (pattern RegExpObject)) (file : string) :
  keepsFile stringMatch ignoredPatterns file <> None ->
  isMatch (keepsFile stringMatch ignoredPatterns file) =
    negb (existsb (fun p => isMatch (stringMatch file p)) ignoredPatterns).
Proof.
  intros Hne. destruct (keepsFile stringMatch ignoredPatterns file) as [ [ | ] | ] eqn:E;
    [ | | congruence ]; simpl; symmetry.
  - apply negb_true_iff, not_true_is_false. intros Hex. apply existsb_exists in Hex.
    destruct Hex as (p & Hp & Hm).
    rewrite (proj1 (keepsFile_true _ _) E p Hp) in Hm. discriminate.
  - apply negb_false_iff, existsb_exists. apply keepsFile_false in E.
    destruct E as (p & Hp & Hm). exists p. now rewrite Hm.
Qed.

(** What the filter returns, when it returns. *)
Lemma filterFiles_Some (files : list string) (ignoredPatterns : list (pattern RegExpObject))
    (kept : list string) :
  filterFiles stringMatch files ignoredPatterns = Some kept ->
  kept = filter (fun file => negb (existsb (fun p => isMatch (stringMatch file p))
                                     ignoredPatterns)) files
  /\ (forall file,
        In file kept <->
        In file files /\ forall p, In p ignoredPatterns -> stringMatch file p = Some false)
  /\ (forall file,
        In file files -> ~ In file kept ->
        exists p, In p ignoredPatterns /\ stringMatch file p = Some true).
Proof.
  intros H.
  change (filterThrowing (keepsFile stringMatch ignoredPatterns) files = Some kept) in H.
  apply filterThrowing_Some in H. destruct H as [ Hkept Hall ].
  assert (Hin : forall file,
             In file kept <->
             In file files /\ keepsFile stringMatch ignoredPatterns file = Some true).
  { intros file. rewrite Hkept, filter_In. split; intros [ Hf Hk ]; split; trivial.
    - now destruct (keepsFile stringMatch ignoredPatterns file) as [ [ | ] | ].
    - now rewrite Hk. }
  split; [ | split ].
  - rewrite Hkept. apply filter_ext_in. intros file Hfile.
    apply keepsFile_any. now apply Hall.
  - intros file. rewrite Hin, keepsFile_true. reflexivity.
  - intros file Hfile Hout. specialize (Hall file Hfile).
    destruct (keepsFile stringMatch ignoredPatterns file) as [ [ | ] | ] eqn:E; [ | | congruence ].
    + exfalso. apply Hout, Hin. now split.
    + now apply keepsFile_false.
Qed.

(** The filter returns when no match of a file against a pattern throws. *)
Lemma filterFiles_total (files : list string) (ignoredPatterns : list (pattern RegExpObject)) :
  (forall file p, In file files -> In p ignoredPatterns -> stringMatch file p <> None) ->
  filterFiles stringMatch files ignoredPatterns <> None.
Proof.
  intros H E.
  change (filterThrowing (keepsFile stringMatch ignoredPatterns) files = None) in E.
  apply filterThrowing_None in E. destruct E as (file & Hfile & E).
  apply keepsFile_None in E. destruct E as (p & Hp & E). now apply (H file p).
Qed.

Lemma getChangedPackages_root (filesChanged : list string)
    (packages : list ManyPkgPackage.t) (repoRoot : string) :
  getRepoRoot execSync = Some repoRoot ->
  getChangedPackages stringMatch execSync filesChanged packages =
    filterThrowing
      (fun pkg =>
         someThrowing (fun file => stringMatch file (directoryPattern repoRoot pkg))
           filesChanged)
      packages.
Proof. intros H. unfold getChangedPackages. now rewrite H. Qed.

(** What the package resolution returns, when it returns. *)
Lemma getChangedPackages_Some (filesChanged : list string)
    (packages changed : list ManyPkgPackage.t) (repoRoot : string) :
  getRepoRoot execSync = Some repoRoot ->
  getChangedPackages stringMatch execSync filesChanged packages = Some changed ->
  sublist changed packages
  /\ forall pkg,
       In pkg changed <->
       In pkg packages
       /\ exists file,
            In file filesChanged
            /\ stringMatch file (directoryPattern repoRoot pkg) = Some true.
Proof.
  intros Hroot H. rewrite (getChangedPackages_root _ _ _ Hroot) in H.
  apply filterThrowing_Some in H. destruct H as [ -> Hall ].
  split; [ apply filter_sublist | ].
  intros pkg. rewrite filter_In. split; intros [ Hpkg H ]; split; trivial.
  - destruct (someThrowing _ filesChanged) as [ [ | ] | ] eqn:E; try discriminate.
    now apply someThrowing_true in E.
  - specialize (Hall pkg Hpkg). destruct H as (file & Hfile & Hm).
    destruct (someThrowing _ filesChanged) as [ [ | ] | ] eqn:E;
      [ reflexivity | | congruence ].
    rewrite (proj1 (someThrowing_false _ _ _) E file Hfile) in Hm. discriminate.
Qed.

(** The package resolution returns when the root resolves and no match
    of a file against the directory of a package throws. *)
Lemma getChangedPackages_total (filesChanged : list string)
    (packages : list ManyPkgPackage.t) (repoRoot : string) :
  getRepoRoot execSync = Some repoRoot ->
  (forall pkg file,
     In pkg packages -> In file filesChanged ->
     stringMatch file (directoryPattern repoRoot pkg) <> None) ->
  getChangedPackages stringMatch execSync filesChanged packages <> None.
Proof.
  intros Hroot H E. rewrite (getChangedPackages_root _ _ _ Hroot) in E.
  apply filterThrowing_None in E. destruct E as (pkg & Hpkg & E).
  apply someThrowing_None in E. destruct E as (file & Hfile & E).
  now apply (H pkg file).
Qed.

Lemma filterBoolean_flat_map (A : Type) (l : list (option A)) :
  filterBoolean l = flat_map (fun o => match o with Some x => [x] | None => [] end) l.
Proof.
  induction l as [ | [ x | ] l IH ]; simpl; [ reflexivity | now rewrite IH | exact IH ].
Qed.

Lemma mapThrowing_Some (A B : Type) (f : A -> option B) (l : list A) (r : list B) :
  mapThrowing f l = Some r -> map f l = map Some r.
Proof.
  revert r. induction l as [ | x l IH ]; simpl; intros r.
  - intros H. now injection H as <-.
  - destruct (f x) as [ y | ]; [ | discriminate ].
    destruct (mapThrowing f l) as [ ys | ]; [ | discriminate ].
    intros H. injection H as <-. simpl. now rewrite (IH ys).
Qed.

Lemma mapThrowing_total (A B : Type) (f : A -> option B) (l : list A) :
  (forall x, In x l -> f x <> None) -> mapThrowing f l <> None.
Proof.
  induction l as [ | x l IH ]; simpl; intros H; [ discriminate | ].
  destruct (f x) as [ y | ] eqn:E; [ | exfalso; apply (H x); [ now left | exact E ] ].
  destruct (mapThrowing f l); [ discriminate | ].
  apply IH. intros z Hz. apply H. now right.
Qed.

(** The output is the changesets of the units, in the order of the units. *)
Lemma assembler_output (units : list ConventionalMessagesToCommits)
    (options : Options RegExpObject) (result : list Changeset.t) :
  conventionalMessagesWithCommitsToChangesets stringMatch execSync units options = Some result ->
  result = flat_map (changesetsOfEntry stringMatch execSync options) units.
Proof.
  unfold conventionalMessagesWithCommitsToChangesets.
  destruct (mapThrowing _ units) as [ results | ] eqn:E; [ | discriminate ].
  intros H. injection H as <-. apply mapThrowing_Some in E.
  rewrite filterBoolean_flat_map.
  revert results E. induction units as [ | u units IH ]; intros [ | r results ];
    simpl; try discriminate; [ reflexivity | ].
  intros E. injection E as Eu E. unfold changesetsOfEntry at 1. rewrite Eu.
  now rewrite (IH _ E).
Qed.

(** The callback returns when the git commands do and no match throws. *)
Lemma changesetOfEntry_total (options : Options RegExpObject)
    (entry : ConventionalMessagesToCommits) :
  (forall command, execSync command <> None) ->
  (forall file p, stringMatch file p <> None) ->
  changesetOfEntry stringMatch execSync options entry <> None.
Proof.
  intros Hexec Hmatch. unfold changesetOfEntry.
  destruct (getFilesChangedSince _ _ _) as [ files | ] eqn:E1.
  - destruct (filterFiles stringMatch files _) as [ filesChanged | ] eqn:E2.
    + destruct (getRepoRoot execSync) as [ repoRoot | ] eqn:E3.
      * destruct (getChangedPackages _ _ filesChanged _) as [ impacted | ] eqn:E4.
        -- destruct (Nat.eqb _ 0); [ discriminate | ].
           destruct (determineReleaseType _ _); discriminate.
        -- exfalso. revert E4. apply (getChangedPackages_total _ _ repoRoot E3).
           intros pkg file _ _. apply Hmatch.
      * unfold getRepoRoot in E3.
        destruct (execSync "git rev-parse --show-toplevel") eqn:E; [ discriminate | ].
        now apply Hexec in E.
    + exfalso. revert E2. apply filterFiles_total. intros file p _ _. apply Hmatch.
  - unfold getFilesChangedSince in E1.
    destruct (execSync _) eqn:E; [ discriminate | ]. now apply Hexec in E.
Qed.

End PipelineFacts.

(** C8, as the code has it.  When no match of a file against an ignore
    pattern throws, the filter returns the files that match none of the
    patterns.  Whenever the filter returns, what it returns is that
    list: a file is kept exactly when every pattern fails to match it,
    a file that is left out matches one of the patterns, and the list is
    a sub-list of the input; and a package is not reported as changed
    when every file that matches its directory is ignored. *)
Theorem ignored_files_are_dropped (RegExpObject : Type)
    (stringMatch : string -> pattern RegExpObject -> option bool)
    (execSync : string -> option string)
    (files : list string) (ignoredPatterns : list (pattern RegExpObject)) :
  ((forall file p, In file files -> In p ignoredPatterns -> stringMatch file p <> None) ->
   filterFiles stringMatch files ignoredPatterns =
     Some (filter
             (fun file =>
                negb (existsb (fun p => isMatch (stringMatch file p)) ignoredPatterns))
             files))
  /\ (forall kept,
        filterFiles stringMatch files ignoredPatterns = Some kept ->
        kept = filter
                 (fun file =>
                    negb (existsb (fun p => isMatch (stringMatch file p)) ignoredPatterns))
                 files
        /\ (forall file,
              In file kept <->
              In file files
              /\ forall p, In p ignoredPatterns -> stringMatch file p = Some false)
        /\ (forall file,
              In file files -> ~ In file kept ->
              exists p, In p ignoredPatterns /\ stringMatch file p = Some true)
        /\ sublist kept files
        /\ (forall (packages changed : list ManyPkgPackage.t) (pkg : ManyPkgPackage.t)
                   (repoRoot : string),
              getRepoRoot execSync = Some repoRoot ->
              (forall file,
                 In file files ->
                 stringMatch file
                   (PString (removeFirst (repoRoot ++ "/") (ManyPkgPackage.dir pkg)))
                   = Some true ->
                 exists p, In p ignoredPatterns /\ stringMatch file p = Some true) ->
              getChangedPackages stringMatch execSync kept packages = Some changed ->
              ~ In pkg changed)).
Proof.
  split.
  - intros Hmatch.
    destruct (filterFiles stringMatch files ignoredPatterns) as [ kept | ] eqn:E.
    + apply filterFiles_Some in E. now destruct E as [ -> _ ].
    + now apply filterFiles_total in E.
  - intros kept Hkept. destruct (filterFiles_Some _ _ _ _ _ Hkept) as (Heq & Hin & Hout).
    split; [ exact Heq | ]. split; [ exact Hin | ]. split; [ exact Hout | ].
    split; [ rewrite Heq; apply filter_sublist | ].
    intros packages changed pkg repoRoot Hroot Hignored Hchanged Hpkg.
    destruct (getChangedPackages_Some _ _ _ _ _ _ repoRoot Hroot Hchanged) as [ _ Hc ].
    apply Hc in Hpkg. destruct Hpkg as (_ & file & Hfile & Hmatch).
    apply Hin in Hfile. destruct Hfile as [ Hfile Hnone ].
    destruct (Hignored file Hfile Hmatch) as (p & Hp & Hpm).
    rewrite (Hnone p Hp) in Hpm. discriminate.
Qed.

Lemma ignored_files_are_dropped_witness :
  filterFiles sampleMatch
    ["packages/package1/file1.ts"; "packages/package2/file2.js"] [ignoreTsOfPackage1] =
    Some (filter
            (fun file =>
               negb (existsb (fun p => isMatch (sampleMatch file p)) [ignoreTsOfPackage1]))
            ["packages/package1/file1.ts"; "packages/package2/file2.js"])
  /\ sublist ["packages/package2/file2.js"]
       ["packages/package1/file1.ts"; "packages/package2/file2.js"].
Proof.
  destruct (ignored_files_are_dropped regex sampleMatch mockedExecSync
              ["packages/package1/file1.ts"; "packages/package2/file2.js"]
              [ignoreTsOfPackage1]) as [ Htotal Hkept ].
  split.
  - apply Htotal. intros file p _ [ <- | [] ]. discriminate.
  - apply (Hkept ["packages/package2/file2.js"]). reflexivity.
Defined.

(** C8, as stated, fails on an ignore pattern that is no regular
    expression: the text [*.lock] starts with a quantifier, [match]
    throws on it, and the filter returns no list at all. *)
Lemma ignored_files_are_dropped_counterexample :
  sampleMatch "yarn.lock" (PString "*.lock") = None
  /\ filterFiles sampleMatch ["yarn.lock"] [PString "*.lock"] = None.
Proof. split; reflexivity. Qed.

(** C7.  For a unit whose git commands, filter and package resolution
    return, the assembler's callback returns [null] when no package is
    impacted after the filter or when the classification is no release,
    which is the case of a message with no type to extract; otherwise it
    returns one changeset, with one release per impacted package in
    order, each of the severity of the unit, the message of the unit as
    its summary and the impacted packages as [packagesChanged].  The
    output of the assembler is what the units give this way, in order,
    and the assembler returns whenever the git commands do and no match
    throws. *)
Theorem assembler_one_changeset_per_unit (RegExpObject : Type)
    (stringMatch : string -> pattern RegExpObject -> option bool)
    (execSync : string -> option string)
    (options : Options RegExpObject) (entry : ConventionalMessagesToCommits)
    (files filesChanged : list string) (impacted : list ManyPkgPackage.t) :
  getFilesChangedSince execSync
    (hashAt 0 (commitHashes entry))
    (hashAt (length (commitHashes entry) - 1) (commitHashes entry)) = Some files ->
  filterFiles stringMatch files
    (match ignoredFiles options with Some l => l | None => [] end) = Some filesChanged ->
  getChangedPackages stringMatch execSync filesChanged (packages options) = Some impacted ->
  (impacted = [] ->
   changesetOfEntry stringMatch execSync options entry = Some None)
  /\ (determineReleaseType (changelogMessage entry) (releaseRules options) = None ->
      changesetOfEntry stringMatch execSync options entry = Some None)
  /\ (getCommitType (changelogMessage entry) = None ->
      determineReleaseType (changelogMessage entry) (releaseRules options) = None)
  /\ (forall releaseType,
        impacted <> [] ->
        determineReleaseType (changelogMessage entry) (releaseRules options) = Some releaseType ->
        exists changeset,
          changesetOfEntry stringMatch execSync options entry = Some (Some changeset)
          /\ Changeset.releases changeset =
               map (fun pkg =>
                      Release.mk (PackageJson.name (ManyPkgPackage.packageJson pkg)) releaseType)
                 impacted
          /\ length (Changeset.releases changeset) = length impacted
          /\ Forall (fun r => Release.type r = releaseType) (Changeset.releases changeset)
          /\ Changeset.summary changeset = changelogMessage entry
          /\ Changeset.packagesChanged changeset = impacted)
  /\ (forall units result,
        conventionalMessagesWithCommitsToChangesets stringMatch execSync units options
          = Some result ->
        result = flat_map (changesetsOfEntry stringMatch execSync options) units)
  /\ ((forall command, execSync command <> None) ->
      (forall file p, stringMatch file p <> None) ->
      forall units,
        conventionalMessagesWithCommitsToChangesets stringMatch execSync units options <> None).
Proof.
  intros Hfiles Hfiltered Himpacted.
  unfold changesetOfEntry. rewrite Hfiles, Hfiltered, Himpacted.
  split; [ | split; [ | split; [ | split; [ | split ] ] ] ].
  - now intros ->.
  - intros ->. now destruct (Nat.eqb (length impacted) 0).
  - apply PredicateFacts.determineReleaseType_None.
  - intros releaseType Hne ->.
    destruct impacted as [ | pkg others ]; [ congruence | ].
    cbn [length Nat.eqb]. eexists. split; [ reflexivity | ].
    cbn [Changeset.releases Changeset.summary Changeset.packagesChanged].
    repeat split.
    + now rewrite length_map.
    + apply Forall_forall. intros r Hr. apply in_map_iff in Hr.
      now destruct Hr as (p & <- & _).
  - intros units result. apply assembler_output.
  - intros Hexec Hmatch units. unfold conventionalMessagesWithCommitsToChangesets.
    destruct (mapThrowing _ units) eqn:E; [ discriminate | exfalso ].
    revert E. apply mapThrowing_total. intros u _. now apply changesetOfEntry_total.
Qed.

Lemma assembler_one_changeset_per_unit_witness :
  exists changeset,
    changesetOfEntry sampleMatch mockedExecSync sampleOptions
      (mkUnit "feat: add new feature" ["hash1"; "hash2"]) = Some (Some changeset)
    /\ Changeset.releases changeset = [ Release.mk "package1" minor ]
    /\ Changeset.summary changeset = "feat: add new feature"
    /\ Changeset.packagesChanged changeset = [ package1 ].
Proof.
  destruct (assembler_one_changeset_per_unit regex sampleMatch mockedExecSync sampleOptions
              (mkUnit "feat: add new feature" ["hash1"; "hash2"])
              ["packages/package1/file1.ts"] ["packages/package1/file1.ts"] [package1]
              eq_refl eq_refl eq_refl)
    as (_ & _ & _ & H & _).
  destruct (H minor) as (changeset & Hc & Hr & _ & _ & Hs & Hp).
  - discriminate.
  - reflexivity.
  - exists changeset. repeat split; assumption.
Defined.

(* ================================================================== *)
(** * The module's tests and the scenarios of the specification *)
(* ================================================================== *)

Example test_correct_release_types :
  conventionalMessagesWithCommitsToChangesets sampleMatch mockedExecSync sampleUnits sampleOptions =
    Some [ Changeset.mk [Release.mk "package1" minor] "feat: add new feature" [package1];
           Changeset.mk [Release.mk "package2" patch] "fix: fix a bug" [package2] ].
Proof. reflexivity. Qed.

Example test_changes_outside_tracked_projects :
  conventionalMessagesWithCommitsToChangesets sampleMatch mockedExecSync sampleUnits
    (mkOptions None
       [ ManyPkgPackage.mk "packages/package3" (PackageJson.mk "package1" "1.0.0") ] None) =
    Some [].
Proof. reflexivity. Qed.

Example test_ignored_file_skips_release :
  conventionalMessagesWithCommitsToChangesets sampleMatch mockedExecSync sampleUnits
    (mkOptions (Some [ignoreTsOfPackage1]) [package1; package2] None) =
    Some [ Changeset.mk [Release.mk "package2" patch] "fix: fix a bug" [package2] ].
Proof. reflexivity. Qed.

(** The fourth scenario of the specification: the ignore pattern is the
    text [*.lock], which is no regular expression, and the call throws
    where the scenario expects no changeset. *)
Example scenario_lock_pattern_throws :
  conventionalMessagesWithCommitsToChangesets sampleMatch
    (fun command =>
       if includes command "git diff" then Some "yarn.lock" else Some "/repo/root")
    [ mkUnit "chore: bump deps" ["hash5"] ]
    (mkOptions (Some [PString "*.lock"]) [package1; package2] None) = None.
Proof. reflexivity. Qed.

Example test_breaking_changes :
  conventionalMessagesWithCommitsToChangesets sampleMatch mockedExecSync
    [ mkUnit ("feat: add new feature" ++ newline ++ "BREAKING CHANGE: something changed")%string
        ["hash1"; "hash2"];
      mkUnit "fix!: fix a bug" ["hash3"; "hash4"] ]
    sampleOptions =
    Some [ Changeset.mk [Release.mk "package1" major]
             ("feat: add new feature" ++ newline ++ "BREAKING CHANGE: something changed")%string
             [package1];
           Changeset.mk [Release.mk "package2" major] "fix!: fix a bug" [package2] ].
Proof. reflexivity. Qed.

Example scenario_fold_into_feat :
  associateCommitsToConventionalCommitMessages
    [ mkCommit "hash1" "feat: add X"; mkCommit "hash2" "wip"; mkCommit "hash3" "fix typo" ] =
    [ mkUnit "feat: add X" ["hash1"; "hash2"; "hash3"] ].
Proof. reflexivity. Qed.

(** What a commit such as [fixup: typo] leads to: it is not folded into
    the unit before it, and its own unit is classified no release. *)
Example fixup_starts_a_unit :
  associateCommitsToConventionalCommitMessages
    [ mkCommit "hash1" "feat: add X"; mkCommit "hash2" "fixup: typo" ] =
    [ mkUnit "feat: add X" ["hash1"]; mkUnit "fixup: typo" ["hash2"] ]
  /\ getCommitType "fixup: typo" = Some "fixup"
  /\ determineReleaseType "fixup: typo" None = None.
Proof. repeat split. Qed.

Example scenario_duplicate_filtered_out :
  difference [fixWithoutNewline]
    [ Changeset.mk [Release.mk "package2" patch] "fix: fix a bug" [] ] = [].
Proof. reflexivity. Qed.

Example stringify_releases :
  JSON.stringify [Release.mk "package2" patch] =
    String.concat ""
      [ "[{"; JSON.quote "name"; ":"; JSON.quote "package2"; ",";
        JSON.quote "type"; ":"; JSON.quote "patch"; "}]" ].
Proof. reflexivity. Qed.

(* ================================================================== *)
(** * Further properties of the commit grouper *)
(* ================================================================== *)

Section GrouperShape.

Lemma filter_snoc (A : Type) (f : A -> bool) (l : list A) (x : A) :
  filter f (l ++ [x]) = filter f l ++ (if f x then [x] else []).
Proof. rewrite filter_app. simpl. now destruct (f x). Qed.

Lemma map_eq_snoc (A B : Type) (f : A -> B) (l : list A) (init : list B) (y : B) :
  map f l = init ++ [y] ->
  exists l' x, l = l' ++ [x] /\ map f l' = init /\ f x = y.
Proof.
  intros H. destruct (snoc_cases l) as [ -> | (l' & x & ->) ].
  - destruct init; discriminate.
  - rewrite map_app in H. simpl in H. apply app_inj_tail in H. destruct H as [ H1 H2 ].
    eauto.
Qed.

(** The last unit is conventional as soon as a commit is. *)
Lemma last_message_conventional (commits : list Commit)
    (earlier : list ConventionalMessagesToCommits) (lastUnit : ConventionalMessagesToCommits)
    (f : Commit) (others : list Commit) :
  filter (fun c => isConventionalCommit (commitMessage c)) commits = f :: others ->
  map changelogMessage (earlier ++ [lastUnit]) = map commitMessage (f :: others) ->
  isConventionalCommit (changelogMessage lastUnit) = true.
Proof.
  intros EF H. rewrite map_app in H. simpl map in H at 2. symmetry in H.
  apply map_eq_snoc in H. destruct H as (l' & x & E & _ & <-).
  assert (Hin : In x (f :: others)) by (rewrite E; apply in_or_app; right; now left).
  rewrite <- EF in Hin. apply filter_In in Hin. now destruct Hin.
Qed.

Lemma group_messages (commits : list Commit) :
  map changelogMessage (associateCommitsToConventionalCommitMessages commits) =
    unitMessages commits.
Proof.
  induction commits as [ | x p IH ] using rev_ind; [ reflexivity | ].
  rewrite group_snoc. unfold unitMessages in *. rewrite filter_snoc.
  destruct (filter _ p) as [ | f others ] eqn:EF.
  - destruct p as [ | c p' ].
    + simpl. now destruct (isConventionalCommit (commitMessage x)).
    + assert (Hc : isConventionalCommit (commitMessage c) = false).
      { simpl in EF. now destruct (isConventionalCommit (commitMessage c)). }
      destruct (associateCommitsToConventionalCommitMessages (c :: p'))
        as [ | u [ | v rest ] ]; try discriminate.
      injection IH as Hu. change [u] with ([] ++ [u]). rewrite associate_next, Hu, Hc.
      now destruct (isConventionalCommit (commitMessage x)).
  - destruct (snoc_cases (associateCommitsToConventionalCommitMessages p))
      as [ E | (earlier & lastUnit & E) ]; [ rewrite E in IH; discriminate | ].
    rewrite E in *. rewrite associate_next.
    rewrite (last_message_conventional p earlier lastUnit f others EF IH).
    destruct (isConventionalCommit (commitMessage x)).
    + change (earlier ++ [lastUnit; mkUnit (commitMessage x) [commitHash x]])
        with (earlier ++ [lastUnit] ++ [mkUnit (commitMessage x) [commitHash x]]).
      rewrite app_assoc, map_app, IH. simpl. now rewrite map_app.
    + rewrite app_nil_r, <- IH, !map_app. reflexivity.
Qed.

Lemma startsAtConventional_more (commits : list Commit) (x : Commit)
    (v : ConventionalMessagesToCommits) :
  startsAtConventional commits v -> startsAtConventional (commits ++ [x]) v.
Proof.
  intros (c & Hin & H). exists c. split; [ apply in_or_app; now left | exact H ].
Qed.

End GrouperShape.

(** X1.  The messages of the units are the messages of the conventional
    commits, in order, or the message of the first commit when no commit
    is conventional; so a non-empty sequence gives as many units as it
    has conventional commits, and one unit when it has none. *)
Theorem unit_messages_are_conventional_messages (commits : list Commit) :
  map changelogMessage (associateCommitsToConventionalCommitMessages commits) =
    match filter (fun c => isConventionalCommit (commitMessage c)) commits with
    | [] => map commitMessage (firstn 1 commits)
    | conventional => map commitMessage conventional
    end
  /\ length (associateCommitsToConventionalCommitMessages commits) =
       match commits with
       | [] => 0
       | _ :: _ =>
           Nat.max 1 (length (filter (fun c => isConventionalCommit (commitMessage c)) commits))
       end.
Proof.
  assert (H := group_messages commits). unfold unitMessages in H.
  split.
  - rewrite H. destruct (filter _ commits); [ | reflexivity ]. now destruct commits.
  - rewrite <- (length_map changelogMessage), H.
    destruct (filter _ commits) as [ | f others ] eqn:EF.
    + now destruct commits.
    + rewrite length_map. destruct commits; [ discriminate | ]. simpl. lia.
Qed.

(** X2.  Every unit after the first one starts at a conventional commit:
    its message is the message of a conventional commit of the input and
    its first hash is the hash of that commit. *)
Theorem later_units_start_at_conventional_commits (commits : list Commit) :
  Forall
    (fun v =>
       exists c,
         In c commits
         /\ isConventionalCommit (commitMessage c) = true
         /\ changelogMessage v = commitMessage c
         /\ hd_error (commitHashes v) = Some (commitHash c))
    (tl (associateCommitsToConventionalCommitMessages commits)).
Proof.
  change (Forall (startsAtConventional commits)
            (tl (associateCommitsToConventionalCommitMessages commits))).
  induction commits as [ | x p IH ] using rev_ind; [ constructor | ].
  rewrite group_snoc.
  assert (IH' : Forall (startsAtConventional (p ++ [x]))
                  (tl (associateCommitsToConventionalCommitMessages p))).
  { revert IH. apply Forall_impl. intros v. apply startsAtConventional_more. }
  assert (Hx : isConventionalCommit (commitMessage x) = true ->
               startsAtConventional (p ++ [x]) (mkUnit (commitMessage x) [commitHash x])).
  { intros Hc. exists x. repeat split; trivial. apply in_or_app. right. now left. }
  destruct (snoc_cases (associateCommitsToConventionalCommitMessages p))
    as [ -> | (earlier & lastUnit & E) ]; [ constructor | ].
  rewrite E in *. rewrite associate_next.
  destruct earlier as [ | e0 e' ].
  - destruct (isConventionalCommit (commitMessage x));
      [ destruct (isConventionalCommit (changelogMessage lastUnit)) | ];
      simpl; repeat constructor. now apply Hx.
  - simpl in IH'. apply Forall_app in IH'. destruct IH' as [ He Hl ].
    inversion Hl as [ | ? ? Hlast _ ]; subst.
    assert (Hconv : isConventionalCommit (changelogMessage lastUnit) = true).
    { destruct Hlast as (c & _ & Hc & -> & _). exact Hc. }
    rewrite Hconv.
    destruct (isConventionalCommit (commitMessage x)) eqn:Hcx; simpl;
      apply Forall_app; split; trivial.
    + repeat constructor; trivial. now apply Hx.
    + repeat constructor. destruct Hlast as (c & Hin & Hc & Hm & Hh).
      exists c. repeat split; trivial. simpl.
      destruct (commitHashes lastUnit); [ discriminate | exact Hh ].
Qed.

(* ================================================================== *)
(** * Further properties of the message predicates and of the classifier *)
(* ================================================================== *)

Module ClassifierShape.
Import RegExpFacts PredicateFacts.

Lemma allMatch_plus (a : atom) (p : string) :
  matches (RPlus a) p <-> p <> "" /\ allMatch a p = true.
Proof.
  split.
  - intros H. inv H. split; [ discriminate | ]. simpl. now apply andb_true_iff.
  - intros [ Hne H ]. destruct p as [ | c p ]; [ congruence | ].
    simpl in H. apply andb_true_iff in H. destruct H. now constructor.
Qed.

(** The texts that may follow the type: a scope, a breaking marker, a colon. *)
Lemma afterTypePattern_matches (p : string) :
  matches afterTypePattern p <->
    exists scope bang, p = (scope ++ bang ++ ":")%string /\ scopeText scope /\ bangText bang.
Proof.
  unfold afterTypePattern, scopeText, bangText. split.
  - intros H.
    repeat match goal with
      | H : matches (RSeq _ _) _ |- _ => inv H
      | H : matches (ROpt _) _ |- _ => inv H
      | H : matches (RGroup _ _) _ |- _ => inv H
      | H : matches (chr _) _ |- _ => unfold chr in H
      | H : matches (RAtom _) _ |- _ => inv H
      | H : atomMatch (AChar _) _ = true |- _ => unfold atomMatch in H
      | H : Ascii.eqb _ _ = true |- _ => apply Ascii.eqb_eq in H; subst
      end.
    + exists "", "". repeat split; now left.
    + match goal with H : matches (RPlus ADot) ?q |- _ =>
        apply allMatch_plus in H; destruct H as [ Hne Hq ];
        exists ("(" ++ q ++ ")")%string, "" end.
      split; [ reflexivity | ]. split; [ right; eauto | now left ].
    + exists "", "!". repeat split; [ now left | now right ].
    + match goal with H : matches (RPlus ADot) ?q |- _ =>
        apply allMatch_plus in H; destruct H as [ Hne Hq ];
        exists ("(" ++ q ++ ")")%string, "!" end.
      split; [ reflexivity | ]. split; [ right; eauto | now right ].
  - intros (scope & bang & -> & Hs & Hb).
    apply matches_seq.
    + destruct Hs as [ -> | (body & Hne & Hbody & ->) ]; [ constructor | ].
      apply matches_opt, matches_group.
      apply (matches_seq _ _ "(" (body ++ ")")); [ now constructor | ].
      apply matches_seq; [ now apply allMatch_plus | now constructor ].
    + apply matches_seq; [ | now constructor ].
      destruct Hb as [ -> | -> ]; [ constructor | ].
      apply matches_opt, matches_group. now constructor.
Qed.

(** What follows the type starts with a character that is not a word
    character. *)
Lemma afterType_startsOffWord (p rest : string) :
  matches afterTypePattern p -> startsOffWord (p ++ rest) = true.
Proof.
  intros H. apply afterTypePattern_matches in H.
  destruct H as (scope & bang & -> & Hs & Hb).
  destruct Hs as [ -> | (body & _ & _ & ->) ]; [ | reflexivity ].
  destruct Hb as [ -> | -> ]; reflexivity.
Qed.

(** A run of word characters followed by another character ends at one
    place only. *)
Lemma word_prefix_unique (a b t t' : string) :
  (a ++ t = b ++ t')%string ->
  allMatch AWord a = true -> allMatch AWord b = true ->
  startsOffWord t = true -> startsOffWord t' = true ->
  a = b /\ t = t'.
Proof.
  revert b. induction a as [ | c a IH ]; intros [ | d b ]; simpl; intros E Ha Hb Ht Ht'.
  - now split.
  - subst t. simpl in Ht. apply andb_true_iff in Hb. destruct Hb as [ Hd _ ].
    rewrite Hd in Ht. discriminate.
  - subst t'. simpl in Ht'. apply andb_true_iff in Ha. destruct Ha as [ Hc _ ].
    rewrite Hc in Ht'. discriminate.
  - injection E as -> E. apply andb_true_iff in Ha. apply andb_true_iff in Hb.
    destruct Ha as [ _ Ha ], Hb as [ _ Hb ].
    destruct (IH b E Ha Hb Ht Ht') as [ -> -> ]. now split.
Qed.

(** A match of the pattern of [getCommitType]: group 1 holds the run of
    word characters the message starts with. *)
Lemma matchStart_commitType (commitMessage : string) (caps : captures) :
  matchStart commitTypePattern commitMessage = Some caps ->
  exists ty p rest,
    commitMessage = (ty ++ p ++ rest)%string
    /\ matches (RPlus AWord) ty /\ matches afterTypePattern p /\ caps 1 = Some ty.
Proof.
  unfold matchStart, commitTypePattern. fold afterTypePattern.
  rewrite run_seq. intros E. apply run_sound in E.
  destruct E as (ty & rest & c' & -> & Hty & E & _ & Hc).
  apply run_sound in E. destruct E as (p & rest' & c'' & -> & Hp & E & Hc' & _).
  injection E as <-. exists ty, p, rest'. inv Hty.
  repeat split; trivial. rewrite Hc' by reflexivity. now apply (Hc 1 (RPlus AWord)).
Qed.

(** [getCommitType], in full. *)
Lemma getCommitType_shape (commitMessage ty : string) :
  getCommitType commitMessage = Some ty <->
    ty <> "" /\ allMatch AWord ty = true
    /\ exists scope bang rest,
         commitMessage = (ty ++ scope ++ bang ++ ":" ++ rest)%string
         /\ scopeText scope /\ bangText bang.
Proof.
  unfold getCommitType. split.
  - destruct (matchStart _ _) as [ caps | ] eqn:E; [ | discriminate ].
    apply matchStart_commitType in E.
    destruct E as (ty' & p & rest & -> & Hty & Hp & Hc). rewrite Hc.
    intros H. injection H as ->. apply allMatch_plus in Hty. destruct Hty as [ Hne Hw ].
    apply afterTypePattern_matches in Hp. destruct Hp as (scope & bang & -> & Hs & Hb).
    repeat split; trivial. exists scope, bang, rest.
    rewrite !append_assoc. simpl. auto.
  - intros (Hne & Hw & scope & bang & rest & -> & Hs & Hb).
    assert (Hp : matches afterTypePattern (scope ++ bang ++ ":")%string)
      by (apply afterTypePattern_matches; eauto).
    assert (Hm : matches commitTypePattern (ty ++ scope ++ bang ++ ":")%string).
    { unfold commitTypePattern. fold afterTypePattern.
      apply matches_seq; [ | exact Hp ]. apply matches_group. now apply allMatch_plus. }
    destruct (matchStart _ _) as [ caps | ] eqn:E.
    + apply matchStart_commitType in E.
      destruct E as (ty' & p & rest' & E & Hty & Hp' & Hc). rewrite Hc. f_equal.
      apply allMatch_plus in Hty. destruct Hty as [ _ Hw' ].
      apply (word_prefix_unique ty' ty (p ++ rest') (scope ++ bang ++ ":" ++ rest)); trivial.
      * now symmetry.
      * now apply afterType_startsOffWord.
      * replace (scope ++ bang ++ ":" ++ rest)%string
          with ((scope ++ bang ++ ":") ++ rest)%string
          by (rewrite !append_assoc; reflexivity).
        now apply afterType_startsOffWord.
    + exfalso. revert E. unfold matchStart.
      replace (ty ++ scope ++ bang ++ ":" ++ rest)%string
        with ((ty ++ scope ++ bang ++ ":") ++ rest)%string
        by (rewrite !append_assoc; reflexivity).
      apply (run_complete _ _ _ Hm rest noCaptures noCaptures).
      * intros s d d'. discriminate.
      * discriminate.
Qed.

End ClassifierShape.

Module ClassifierFacts.
Import RegExpFacts PredicateFacts ClassifierShape.

Lemma typeNames_commitType (ty : string) :
  In ty typeNames -> exists commitType, In commitType defaultCommitTypes
                                        /\ CommitType.type commitType = ty.
Proof.
  unfold typeNames. intros H. apply in_map_iff in H.
  destruct H as (commitType & E & Hin). eauto.
Qed.

Lemma scopeText_dots (scope : string) : scopeText scope -> allMatch ADot scope = true.
Proof.
  intros [ -> | (body & _ & Hbody & ->) ]; [ reflexivity | ].
  simpl. rewrite allMatch_append, Hbody. reflexivity.
Qed.

Lemma bangText_dots (bang : string) : bangText bang -> allMatch ADot bang = true.
Proof. intros [ -> | -> ]; reflexivity. Qed.

(** The pattern of the specification accepts a type followed by a scope,
    a marker and a colon. *)
Lemma asSpecified_typed (ty scope bang : string) :
  scopeText scope -> bangText bang ->
  matches (conventionalPatternAsSpecified ty) (ty ++ scope ++ bang ++ ":")%string.
Proof.
  intros Hs Hb. unfold conventionalPatternAsSpecified.
  apply matches_seq; [ constructor | ]. apply matches_seq.
  - destruct Hs as [ -> | (body & _ & Hbody & ->) ]; [ constructor | ].
    apply matches_opt. apply (matches_seq _ _ "(" (body ++ ")")); [ now constructor | ].
    apply matches_seq; now constructor.
  - apply matches_seq; [ | now constructor ].
    destruct Hb as [ -> | -> ]; [ constructor | ]. apply matches_opt. now constructor.
Qed.

Lemma typed_asSpecified (commitMessage ty : string) :
  getCommitType commitMessage = Some ty -> In ty typeNames ->
  isConventionalCommitAsSpecified commitMessage = true.
Proof.
  intros H Hin. apply getCommitType_shape in H.
  destruct H as (_ & _ & scope & bang & rest & -> & Hs & Hb).
  apply typeNames_commitType in Hin. destruct Hin as (commitType & Hin & <-).
  unfold isConventionalCommitAsSpecified. apply existsb_exists.
  exists commitType. split; [ exact Hin | ]. apply test_true_iff.
  exists (CommitType.type commitType ++ scope ++ bang ++ ":")%string, rest.
  split; [ now rewrite !append_assoc | now apply asSpecified_typed ].
Qed.

(** The classification by the default table, rule by rule. *)
Lemma default_table (changelogMessage ty : string) :
  firstMatchingRelease changelogMessage ty defaultReleaseRules =
    if isBreakingChange changelogMessage then Some major
    else if isRevertChange changelogMessage then Some patch
    else if existsb (fun t => String.eqb t ty) ["feat"; "feature"] then Some minor
    else if existsb (fun t => String.eqb t ty)
              ["fix"; "perf"; "revert"; "docs"; "style"; "chore"; "refactor"; "test";
               "build"; "ci"]
         then Some patch
    else None.
Proof.
  unfold firstMatchingRelease, defaultReleaseRules, typeRule, find, ruleApplies, typeIs.
  cbn [ReleaseRule.breaking ReleaseRule.revert ReleaseRule.type ReleaseRule.release
       isSet nonEmpty andb orb negb existsb].
  destruct (isBreakingChange changelogMessage); [ reflexivity | ].
  destruct (isRevertChange changelogMessage); [ reflexivity | ].
  cbn [orb andb].
  repeat match goal with
    | |- context [ String.eqb ?a "" ] =>
        change (String.eqb a "") with false; cbn [negb andb orb]
    end.
  repeat match goal with
    | |- context [ String.eqb ?a ty ] =>
        destruct (String.eqb a ty); cbn [negb andb orb]; try reflexivity
    end.
Qed.

Lemma existsb_test_iff (pat : string -> regex) (commit : string) :
  existsb (fun commitType => test (pat (CommitType.type commitType)) commit)
    defaultCommitTypes = true <->
  exists ty p rest, In ty typeNames /\ commit = (p ++ rest)%string /\ matches (pat ty) p.
Proof.
  rewrite existsb_exists. unfold typeNames. split.
  - intros (commitType & Hin & Ht). apply test_true_iff in Ht.
    destruct Ht as (p & rest & -> & Hp).
    exists (CommitType.type commitType), p, rest. split; [ now apply in_map | auto ].
  - intros (ty & p & rest & Hin & -> & Hp). apply in_map_iff in Hin.
    destruct Hin as (commitType & <- & Hin). exists commitType. split; [ exact Hin | ].
    apply test_true_iff. eauto.
Qed.

(** The messages the breaking pattern accepts: a type name, any text
    without a line break, then [!:]. *)
Lemma breaking_marker_iff (commit : string) :
  existsb (fun commitType => test (breakingPattern (CommitType.type commitType)) commit)
    defaultCommitTypes = true <->
  exists ty mid rest,
    In ty typeNames /\ commit = (ty ++ mid ++ "!:" ++ rest)%string
    /\ allMatch ADot mid = true.
Proof.
  rewrite existsb_test_iff. split.
  - intros (ty & p & rest & Hin & -> & Hp). apply breakingPattern_matches in Hp.
    destruct Hp as (mid & -> & Hmid). exists ty, mid, rest.
    split; [ exact Hin | ]. split; [ | exact Hmid ]. now rewrite !append_assoc.
  - intros (ty & mid & rest & Hin & -> & Hmid).
    exists ty, (ty ++ mid ++ "!:")%string, rest. split; [ exact Hin | ].
    split; [ now rewrite !append_assoc | ]. apply breakingPattern_matches. eauto.
Qed.

Lemma word_is_no_break (c : ascii) : isWordChar c = true -> isLineTerminator c = false.
Proof.
  destruct c as [ [ | ] [ | ] [ | ] [ | ] [ | ] [ | ] [ | ] [ | ] ];
    intros H; try reflexivity; discriminate H.
Qed.

Lemma word_dots (s : string) : allMatch AWord s = true -> allMatch ADot s = true.
Proof.
  induction s as [ | c s IH ]; simpl; [ reflexivity | ].
  intros H. apply andb_true_iff in H. destruct H as [ Hc Hs ].
  now rewrite (word_is_no_break c Hc), IH.
Qed.

Lemma typeNames_dots (ty : string) : In ty typeNames -> allMatch ADot ty = true.
Proof.
  unfold typeNames. simpl. intros H.
  repeat (destruct H as [ <- | H ]; [ reflexivity | ]). destruct H.
Qed.

(** A text without a line break that starts a message ends before the
    first line break of the message. *)
Lemma prefix_before_break (a r line body : string) (c : ascii) :
  (a ++ r = line ++ String c body)%string ->
  allMatch ADot a = true -> isLineTerminator c = true ->
  exists r', line = (a ++ r')%string /\ r = (r' ++ String c body)%string.
Proof.
  revert line. induction a as [ | x a IH ]; simpl; intros line E Ha Hc.
  - exists line. auto.
  - apply andb_true_iff in Ha. destruct Ha as [ Hx Ha ].
    destruct line as [ | y line ]; simpl in E; injection E as -> E.
    + rewrite Hc in Hx. discriminate.
    + destruct (IH line E Ha Hc) as (r' & -> & ->). exists r'. auto.
Qed.

Lemma option_ext (A : Type) (a b : option A) :
  (forall x, a = Some x <-> b = Some x) -> a = b.
Proof.
  intros H. destruct a as [ x | ].
  - symmetry. now apply H.
  - destruct b as [ y | ]; [ | reflexivity ]. now apply H.
Qed.

End ClassifierFacts.

(** X3.  [getCommitType] returns a type exactly for a message that
    starts with a non-empty run of word characters followed by an
    optional scope (a non-empty text without a line break, between
    parentheses), an optional [!] and a colon; the type is that run. *)
Theorem extracted_type_is_leading_word (commitMessage ty : string) :
  getCommitType commitMessage = Some ty <->
    ty <> "" /\ allMatch AWord ty = true
    /\ exists scope bang rest,
         commitMessage = (ty ++ scope ++ bang ++ ":" ++ rest)%string
         /\ scopeText scope /\ bangText bang.
Proof. apply ClassifierShape.getCommitType_shape. Qed.

(** X4.  A message whose extracted type is one of the twelve type names
    is conventional, for the predicate of the code and in the sense of
    the specification's pattern. *)
Theorem typed_message_is_conventional (commitMessage ty : string) :
  getCommitType commitMessage = Some ty ->
  In ty typeNames ->
  isConventionalCommit commitMessage = true
  /\ isConventionalCommitAsSpecified commitMessage = true.
Proof.
  intros H Hin.
  assert (Hs := ClassifierFacts.typed_asSpecified _ _ H Hin).
  split; [ now apply PredicateFacts.asSpecified_isConventionalCommit | exact Hs ].
Qed.

Lemma typed_message_is_conventional_witness :
  isConventionalCommit "feat(api)!: drop v1" = true
  /\ isConventionalCommitAsSpecified "feat(api)!: drop v1" = true.
Proof.
  apply (typed_message_is_conventional "feat(api)!: drop v1" "feat").
  - reflexivity.
  - unfold typeNames. simpl. now left.
Defined.

(** X5.  With the default table, a message with an extracted type is
    classified major when it is a breaking change, otherwise patch when
    it starts with [revert], otherwise minor for the types [feat] and
    [feature], patch for the ten other type names, and no release for
    any other type. *)
Theorem default_classification (changelogMessage ty : string) :
  getCommitType changelogMessage = Some ty ->
  determineReleaseType changelogMessage None =
    if isBreakingChange changelogMessage then Some major
    else if isRevertChange changelogMessage then Some patch
    else if existsb (fun t => String.eqb t ty) ["feat"; "feature"] then Some minor
    else if existsb (fun t => String.eqb t ty)
              ["fix"; "perf"; "revert"; "docs"; "style"; "chore"; "refactor"; "test";
               "build"; "ci"]
         then Some patch
    else None.
Proof.
  intros H. rewrite (PredicateFacts.determineReleaseType_Some _ ty None H).
  apply ClassifierFacts.default_table.
Qed.

Lemma default_classification_witness :
  determineReleaseType "reverts: undo the upgrade" None =
    if isBreakingChange "reverts: undo the upgrade" then Some major
    else if isRevertChange "reverts: undo the upgrade" then Some patch
    else if existsb (fun t => String.eqb t "reverts") ["feat"; "feature"] then Some minor
    else if existsb (fun t => String.eqb t "reverts")
              ["fix"; "perf"; "revert"; "docs"; "style"; "chore"; "refactor"; "test";
               "build"; "ci"]
         then Some patch
    else None.
Proof.
  apply (default_classification "reverts: undo the upgrade" "reverts"). reflexivity.
Defined.

(** X6.  On a message whose extracted type is one of the twelve type
    names, the classifier with the default table gives the severity the
    earlier classifier gave: major for a breaking change, minor for
    [feat] and [feature], patch otherwise. *)
Theorem legacy_agrees_on_known_types (changelogMessage ty : string) :
  getCommitType changelogMessage = Some ty ->
  In ty typeNames ->
  determineReleaseType changelogMessage None =
    Some (determineReleaseTypeLegacy changelogMessage).
Proof.
  intros H Hin.
  rewrite (PredicateFacts.determineReleaseType_Some _ ty None H).
  unfold tableOf. rewrite ClassifierFacts.default_table.
  unfold determineReleaseTypeLegacy.
  destruct (isBreakingChange changelogMessage); [ reflexivity | ].
  apply PredicateFacts.getCommitType_Some in H. destruct H as (_ & _ & rest & ->).
  unfold typeNames in Hin. simpl in Hin.
  repeat (destruct Hin as [ <- | Hin ]; [ destruct rest; reflexivity | ]). destruct Hin.
Qed.

Lemma legacy_agrees_on_known_types_witness :
  determineReleaseType "feature(ui): dark mode" None =
    Some (determineReleaseTypeLegacy "feature(ui): dark mode").
Proof.
  apply (legacy_agrees_on_known_types "feature(ui): dark mode" "feature").
  - reflexivity.
  - unfold typeNames. simpl. right. now left.
Defined.

(** X7.  A message is a breaking change for the code exactly when it
    contains the breaking-change literal or starts with a type name
    followed, after any text without a line break, by [!:]; a message
    that is breaking by its marker alone is conventional. *)
Theorem breaking_change_shape (commit : string) :
  (isBreakingChange commit = true <->
   includes commit "BREAKING CHANGE:" = true
   \/ exists ty mid rest,
        In ty typeNames /\ commit = (ty ++ mid ++ "!:" ++ rest)%string
        /\ allMatch ADot mid = true)
  /\ (isBreakingChange commit = true ->
      includes commit "BREAKING CHANGE:" = false ->
      isConventionalCommit commit = true).
Proof.
  assert (Hiff : isBreakingChange commit = true <->
                 includes commit "BREAKING CHANGE:" = true
                 \/ exists ty mid rest,
                      In ty typeNames /\ commit = (ty ++ mid ++ "!:" ++ rest)%string
                      /\ allMatch ADot mid = true).
  { unfold isBreakingChange. rewrite orb_true_iff.
    now rewrite ClassifierFacts.breaking_marker_iff. }
  split; [ exact Hiff | ].
  intros Hb Hlit. apply Hiff in Hb. destruct Hb as [ Hb | (ty & mid & rest & Hin & -> & Hmid) ].
  - rewrite Hb in Hlit. discriminate.
  - apply PredicateFacts.isConventionalCommit_iff.
    exists ty, (mid ++ "!")%string, rest. split; [ exact Hin | ].
    split; [ now rewrite !append_assoc | ].
    rewrite RegExpFacts.allMatch_append, Hmid. reflexivity.
Qed.

Lemma breaking_change_shape_witness :
  isConventionalCommit "fix(core)!: drop the old API" = true.
Proof.
  destruct (breaking_change_shape "fix(core)!: drop the old API") as [ _ H ].
  apply H; reflexivity.
Defined.

(** X8.  Whether a message is conventional, and the type extracted from
    it, depend on its first line only. *)
Theorem first_line_decides (line body : string) (c : ascii) :
  allMatch ADot line = true ->
  isLineTerminator c = true ->
  isConventionalCommit (line ++ String c body) = isConventionalCommit line
  /\ getCommitType (line ++ String c body) = getCommitType line.
Proof.
  intros Hline Hc. split.
  - apply eq_true_iff_eq. rewrite !PredicateFacts.isConventionalCommit_iff. split.
    + intros (ty & mid & rest & Hin & E & Hmid).
      replace (ty ++ mid ++ ":" ++ rest)%string with ((ty ++ mid ++ ":") ++ rest)%string in E
        by (now rewrite !append_assoc).
      symmetry in E. apply ClassifierFacts.prefix_before_break in E; trivial.
      * destruct E as (r' & -> & _). exists ty, mid, r'. split; [ exact Hin | ].
        split; [ now rewrite !append_assoc | exact Hmid ].
      * rewrite !RegExpFacts.allMatch_append, Hmid, (ClassifierFacts.typeNames_dots ty Hin).
        reflexivity.
    + intros (ty & mid & rest & Hin & -> & Hmid).
      exists ty, mid, (rest ++ String c body)%string. split; [ exact Hin | ].
      split; [ now rewrite !append_assoc | exact Hmid ].
  - apply ClassifierFacts.option_ext. intros ty.
    rewrite !ClassifierShape.getCommitType_shape. split.
    + intros (Hne & Hw & scope & bang & rest & E & Hs & Hb).
      replace (ty ++ scope ++ bang ++ ":" ++ rest)%string
        with ((ty ++ scope ++ bang ++ ":") ++ rest)%string in E
        by (now rewrite !append_assoc).
      symmetry in E. apply ClassifierFacts.prefix_before_break in E; trivial.
      * destruct E as (r' & -> & _). repeat split; trivial. exists scope, bang, r'.
        split; [ now rewrite !append_assoc | auto ].
      * rewrite !RegExpFacts.allMatch_append, (ClassifierFacts.word_dots ty Hw),
          (ClassifierFacts.scopeText_dots scope Hs), (ClassifierFacts.bangText_dots bang Hb).
        reflexivity.
    + intros (Hne & Hw & scope & bang & rest & -> & Hs & Hb).
      repeat split; trivial. exists scope, bang, (rest ++ String c body)%string.
      split; [ now rewrite !append_assoc | auto ].
Qed.

Lemma first_line_decides_witness :
  isConventionalCommit ("fix: typo" ++ String LF "BREAKING CHANGE: none") =
    isConventionalCommit "fix: typo"
  /\ getCommitType ("fix: typo" ++ String LF "BREAKING CHANGE: none") =
       getCommitType "fix: typo".
Proof.
  apply (first_line_decides "fix: typo" "BREAKING CHANGE: none" LF); reflexivity.
Defined.

(* ================================================================== *)
(** * Further properties of the filter, the assembler and the script *)
(* ================================================================== *)

Section ListFacts.

Variable A : Type.

Lemma filter_filter (f g : A -> bool) (l : list A) :
  filter g (filter f l) = filter (fun x => f x && g x) l.
Proof.
  induction l as [ | x l IH ]; simpl; [ reflexivity | ].
  destruct (f x); simpl; [ destruct (g x); now rewrite IH | exact IH ].
Qed.

Lemma sublist_In (l1 l2 : list A) (x : A) : sublist l1 l2 -> In x l1 -> In x l2.
Proof.
  induction 1 as [ | y l1 l2 H IH | y l1 l2 H IH ]; simpl; intros Hin.
  - exact Hin.
  - right. now apply IH.
  - destruct Hin as [ -> | Hin ]; [ now left | right; now apply IH ].
Qed.

Lemma sublist_app (l1 l2 m1 m2 : list A) :
  sublist l1 l2 -> sublist m1 m2 -> sublist (l1 ++ m1) (l2 ++ m2).
Proof.
  induction 1; simpl; intros Hm;
    [ exact Hm | apply sublist_skip; auto | apply sublist_keep; auto ].
Qed.

Lemma sublist_nil_l (l : list A) : sublist [] l.
Proof. induction l; constructor; trivial. Qed.


End ListFacts.

Section FilterAndPackages.

Variable RegExpObject : Type.
Variable stringMatch : string -> pattern RegExpObject -> option bool.
Variable execSync : string -> option string.

Lemma dropPrefix_prefix (p s rest : string) :
  dropPrefix p s = Some rest -> String.prefix p s = true.
Proof.
  intros H. apply RegExpFacts.dropPrefix_Some in H. subst s.
  induction p as [ | c p IH ]; simpl.
  - now destruct rest.
  - destruct (ascii_dec c c); [ exact IH | congruence ].
Qed.

Lemma removeFirst_under (p rel : string) : removeFirst p (p ++ rel) = rel.
Proof.
  destruct p as [ | c p ]; simpl.
  - now destruct rel.
  - now rewrite Ascii.eqb_refl, RegExpFacts.dropPrefix_append.
Qed.

Lemma removeFirst_absent (p s : string) : includes s p = false -> removeFirst p s = s.
Proof.
  induction s as [ | c s IH ]; cbn [includes removeFirst]; intros H;
    apply orb_false_iff in H; destruct H as [ Hp Hs ].
  - destruct (dropPrefix p "") eqn:E; [ | reflexivity ].
    apply dropPrefix_prefix in E. rewrite E in Hp. discriminate.
  - destruct (dropPrefix p (String c s)) eqn:E.
    + apply dropPrefix_prefix in E. rewrite E in Hp. discriminate.
    + now rewrite IH.
Qed.

(** What the callback of the assembler gives when it gives a changeset. *)
Lemma changesetOfEntry_changeset (options : Options RegExpObject)
    (entry : ConventionalMessagesToCommits) (changeset : Changeset.t) :
  changesetOfEntry stringMatch execSync options entry = Some (Some changeset) ->
  Changeset.packagesChanged changeset <> []
  /\ sublist (Changeset.packagesChanged changeset) (packages options)
  /\ Changeset.summary changeset = changelogMessage entry
  /\ exists releaseType,
       determineReleaseType (changelogMessage entry) (releaseRules options) = Some releaseType
       /\ Changeset.releases changeset =
            map (fun pkg =>
                   Release.mk (PackageJson.name (ManyPkgPackage.packageJson pkg)) releaseType)
              (Changeset.packagesChanged changeset).
Proof.
  unfold changesetOfEntry.
  destruct (getFilesChangedSince _ _ _) as [ files | ]; [ | discriminate ].
  destruct (filterFiles stringMatch files _) as [ filesChanged | ]; [ | discriminate ].
  destruct (getChangedPackages _ _ filesChanged _) as [ impacted | ] eqn:E; [ | discriminate ].
  assert (Hsub : sublist impacted (packages options)).
  { destruct (getRepoRoot execSync) as [ repoRoot | ] eqn:Hroot.
    - now destruct (getChangedPackages_Some _ _ _ _ _ _ repoRoot Hroot E).
    - unfold getChangedPackages in E. rewrite Hroot in E. discriminate. }
  destruct impacted as [ | pkg others ]; [ discriminate | ].
  cbn [length Nat.eqb].
  destruct (determineReleaseType _ _) as [ releaseType | ] eqn:Ety; [ | discriminate ].
  intros H. injection H as <-. cbn.
  split; [ discriminate | ]. split; [ exact Hsub | ]. split; [ reflexivity | ].
  exists releaseType. split; reflexivity.
Qed.

(** The callback throws exactly when one of its two git commands throws
    or a match throws, in the filter or in the package resolution. *)
Lemma changesetOfEntry_None (options : Options RegExpObject)
    (entry : ConventionalMessagesToCommits) :
  changesetOfEntry stringMatch execSync options entry = None <->
    execSync (diffCommand entry) = None
    \/ execSync "git rev-parse --show-toplevel" = None
    \/ exists files,
         getFilesChangedSince execSync
           (hashAt 0 (commitHashes entry))
           (hashAt (length (commitHashes entry) - 1) (commitHashes entry)) = Some files
         /\ (filterFiles stringMatch files
               (match ignoredFiles options with Some l => l | None => [] end) = None
             \/ exists filesChanged,
                  filterFiles stringMatch files
                    (match ignoredFiles options with Some l => l | None => [] end)
                    = Some filesChanged
                  /\ getChangedPackages stringMatch execSync filesChanged (packages options)
                     = None).
Proof.
  unfold changesetOfEntry.
  destruct (getFilesChangedSince _ _ _) as [ files | ] eqn:E1.
  - assert (Hdiff : execSync (diffCommand entry) <> None).
    { unfold getFilesChangedSince in E1. unfold diffCommand.
      destruct (execSync (_ ++ _)); [ discriminate | discriminate ]. }
    destruct (filterFiles stringMatch files _) as [ filesChanged | ] eqn:E2.
    + destruct (getChangedPackages _ _ filesChanged _) as [ impacted | ] eqn:E3.
      * assert (Hroot : execSync "git rev-parse --show-toplevel" <> None).
        { unfold getChangedPackages, getRepoRoot in E3.
          destruct (execSync "git rev-parse --show-toplevel"); discriminate. }
        assert (Hres : (if Nat.eqb (length impacted) 0 then Some None
                        else match determineReleaseType (changelogMessage entry)
                                     (releaseRules options) with
                             | None => Some None
                             | Some releaseType =>
                                 Some (Some (Changeset.mk
                                   (map (fun pkg =>
                                           Release.mk
                                             (PackageJson.name (ManyPkgPackage.packageJson pkg))
                                             releaseType) impacted)
                                   (changelogMessage entry) impacted))
                             end) <> None).
        { destruct (Nat.eqb _ 0); [ discriminate | ].
          destruct (determineReleaseType _ _); discriminate. }
        split; [ intros H; now apply Hres in H | ].
        intros [ H | [ H | (files' & Hf & [ H | (fc & Hfc & H) ]) ] ]; try contradiction.
        -- injection Hf as <-. cbn zeta in H. congruence.
        -- injection Hf as <-. cbn zeta in Hfc, H. congruence.
      * split; [ intros _ | reflexivity ].
        right. right. exists files. split; [ reflexivity | ]. right.
        exists filesChanged. split; [ exact E2 | exact E3 ].
    + split; [ intros _ | reflexivity ].
      right. right. exists files. split; [ reflexivity | ]. now left.
  - split; [ intros _ | reflexivity ].
    left. unfold getFilesChangedSince in E1. unfold diffCommand.
    destruct (execSync (_ ++ _)); [ discriminate | reflexivity ].
Qed.

(** A failing git command alone makes the callback throw. *)
Lemma changesetOfEntry_git (options : Options RegExpObject)
    (entry : ConventionalMessagesToCommits) :
  execSync (diffCommand entry) = None \/ execSync "git rev-parse --show-toplevel" = None ->
  changesetOfEntry stringMatch execSync options entry = None.
Proof.
  intros H. apply changesetOfEntry_None. tauto.
Qed.


End FilterAndPackages.

Section AssemblerShape.

Variable RegExpObject : Type.
Variable stringMatch : string -> pattern RegExpObject -> option bool.
Variable execSync : string -> option string.

Lemma changesetsOfEntry_cases (options : Options RegExpObject)
    (entry : ConventionalMessagesToCommits) :
  changesetsOfEntry stringMatch execSync options entry = []
  \/ exists changeset,
       changesetsOfEntry stringMatch execSync options entry = [changeset]
       /\ changesetOfEntry stringMatch execSync options entry = Some (Some changeset).
Proof.
  unfold changesetsOfEntry.
  destruct (changesetOfEntry _ _ _ _) as [ [ changeset | ] | ]; eauto.
Qed.

Lemma assembler_emits (units : list ConventionalMessagesToCommits)
    (options : Options RegExpObject) (result : list Changeset.t) :
  conventionalMessagesWithCommitsToChangesets stringMatch execSync units options = Some result ->
  Forall (emittedFor options units) result
  /\ sublist (map Changeset.summary result) (map changelogMessage units).
Proof.
  intros H. apply assembler_output in H. subst result. split.
  - apply Forall_forall. intros changeset Hin. apply in_flat_map in Hin.
    destruct Hin as (entry & Hentry & Hin).
    destruct (changesetsOfEntry_cases options entry) as [ E | (c & E & Hc) ];
      rewrite E in Hin; [ destruct Hin | destruct Hin as [ <- | [] ] ].
    apply changesetOfEntry_changeset in Hc.
    destruct Hc as (Hne & Hsub & Hsum & releaseType & Hty & Hrel).
    split; [ | split; [ exact Hsub | ] ].
    + rewrite Hrel. intros Hnil. apply map_eq_nil in Hnil. contradiction.
    + exists entry, releaseType. auto.
  - induction units as [ | entry units IH ]; simpl; [ constructor | ].
    rewrite map_app.
    change (changelogMessage entry :: map changelogMessage units)
      with ([changelogMessage entry] ++ map changelogMessage units).
    apply sublist_app; [ | exact IH ].
    destruct (changesetsOfEntry_cases options entry) as [ E | (c & E & Hc) ]; rewrite E.
    + apply sublist_nil_l.
    + apply changesetOfEntry_changeset in Hc. destruct Hc as (_ & _ & Hsum & _).
      simpl. rewrite Hsum. apply sublist_keep, sublist_nil.
Qed.

End AssemblerShape.

Section FilterComposition.

Variable RegExpObject : Type.
Variable stringMatch : string -> pattern RegExpObject -> option bool.

Lemma everyThrowing_app (A : Type) (f : A -> option bool) (p q : list A) :
  everyThrowing f (p ++ q) =
    match everyThrowing f p with
    | Some true => everyThrowing f q
    | outcome => outcome
    end.
Proof.
  induction p as [ | x p IH ]; simpl; [ reflexivity | ].
  destruct (f x) as [ [ | ] | ]; simpl; [ exact IH | reflexivity | reflexivity ].
Qed.

Lemma filterThrowing_all_true (A : Type) (f : A -> option bool) (l : list A) :
  (forall x, In x l -> f x = Some true) -> filterThrowing f l = Some l.
Proof.
  induction l as [ | x l IH ]; simpl; intros H; [ reflexivity | ].
  rewrite (H x) by now left. simpl. rewrite IH; [ reflexivity | ].
  intros y Hy. apply H. now right.
Qed.

Lemma filterFiles_nil (files : list string) :
  filterFiles stringMatch files [] = Some files.
Proof. apply filterThrowing_all_true. reflexivity. Qed.

Lemma filterFiles_app (files : list string) (p q : list (pattern RegExpObject)) :
  filterFiles stringMatch files (p ++ q) =
    match filterFiles stringMatch files p with
    | Some kept => filterFiles stringMatch kept q
    | None => None
    end.
Proof.
  change (filterThrowing (keepsFile stringMatch (p ++ q)) files =
          match filterThrowing (keepsFile stringMatch p) files with
          | Some kept => filterThrowing (keepsFile stringMatch q) kept
          | None => None
          end).
  induction files as [ | file files IH ]; simpl; [ reflexivity | ].
  unfold keepsFile at 1. rewrite everyThrowing_app. fold (keepsFile stringMatch p file).
  fold (keepsFile stringMatch q file). rewrite IH.
  destruct (keepsFile stringMatch p file) as [ [ | ] | ]; simpl.
  - destruct (filterThrowing (keepsFile stringMatch p) files) as [ kept | ]; simpl.
    + reflexivity.
    + now destruct (keepsFile stringMatch q file).
  - destruct (filterThrowing (keepsFile stringMatch p) files) as [ kept | ]; simpl;
      [ | reflexivity ].
    now destruct (filterThrowing (keepsFile stringMatch q) kept).
  - reflexivity.
Qed.

Lemma filterFiles_again (files kept : list string) (p : list (pattern RegExpObject)) :
  filterFiles stringMatch files p = Some kept ->
  filterFiles stringMatch kept p = Some kept.
Proof.
  intros H. apply filterFiles_Some in H. destruct H as (_ & Hin & _).
  apply filterThrowing_all_true. intros file Hfile.
  apply keepsFile_true, Hin, Hfile.
Qed.

End FilterComposition.

(** X9.  Filtering with no ignore pattern keeps every file; filtering
    with two lists of patterns at once is filtering with one and then,
    when that returns, with the other, and throws when the first pass
    throws; and filtering what a pass returned with the same patterns
    again returns it unchanged. *)
Theorem filter_by_patterns_composes (RegExpObject : Type)
    (stringMatch : string -> pattern RegExpObject -> option bool)
    (files : list string) (p q : list (pattern RegExpObject)) :
  filterFiles stringMatch files [] = Some files
  /\ filterFiles stringMatch files (p ++ q) =
       match filterFiles stringMatch files p with
       | Some kept => filterFiles stringMatch kept q
       | None => None
       end
  /\ match filterFiles stringMatch files p with
     | Some kept => filterFiles stringMatch kept p
     | None => None
     end = filterFiles stringMatch files p.
Proof.
  split; [ apply filterFiles_nil | ]. split; [ apply filterFiles_app | ].
  destruct (filterFiles stringMatch files p) as [ kept | ] eqn:E; [ | reflexivity ].
  now apply filterFiles_again in E.
Qed.

(** X10.  With the root of the repository known, the package resolution
    returns when no match of a changed file against the directory
    pattern of a package throws.  Whenever it returns, the changed
    packages are a sub-list of the packages given; a package whose
    directory is under the root is changed exactly when a file matches
    its directory relative to the root, and a package whose directory
    does not contain the root is matched by its directory as it
    stands. *)
Theorem changed_packages_by_relative_directory (RegExpObject : Type)
    (stringMatch : string -> pattern RegExpObject -> option bool)
    (execSync : string -> option string)
    (filesChanged : list string) (packages : list ManyPkgPackage.t) (repoRoot : string) :
  getRepoRoot execSync = Some repoRoot ->
  ((forall pkg file,
      In pkg packages -> In file filesChanged ->
      stringMatch file (PString (removeFirst (repoRoot ++ "/") (ManyPkgPackage.dir pkg)))
        <> None) ->
   exists changed,
     getChangedPackages stringMatch execSync filesChanged packages = Some changed)
  /\ (forall changed,
        getChangedPackages stringMatch execSync filesChanged packages = Some changed ->
        sublist changed packages
        /\ (forall pkg rel,
              ManyPkgPackage.dir pkg = (repoRoot ++ "/" ++ rel)%string ->
              (In pkg changed <->
               In pkg packages
               /\ exists file,
                    In file filesChanged /\ stringMatch file (PString rel) = Some true))
        /\ (forall pkg,
              includes (ManyPkgPackage.dir pkg) (repoRoot ++ "/") = false ->
              (In pkg changed <->
               In pkg packages
               /\ exists file,
                    In file filesChanged
                    /\ stringMatch file (PString (ManyPkgPackage.dir pkg)) = Some true))).
Proof.
  intros Hroot. split.
  - intros Hmatch.
    destruct (getChangedPackages stringMatch execSync filesChanged packages)
      as [ changed | ] eqn:E; [ now exists changed | exfalso ].
    revert E. now apply (getChangedPackages_total _ _ _ _ _ repoRoot Hroot).
  - intros changed Hchanged.
    destruct (getChangedPackages_Some _ _ _ _ _ _ repoRoot Hroot Hchanged) as [ Hsub Hin ].
    split; [ exact Hsub | ]. split.
    + intros pkg rel Hdir. rewrite Hin. unfold directoryPattern. rewrite Hdir.
      replace (repoRoot ++ "/" ++ rel)%string with ((repoRoot ++ "/") ++ rel)%string
        by (now rewrite append_assoc).
      now rewrite removeFirst_under.
    + intros pkg Habsent. rewrite Hin. unfold directoryPattern.
      now rewrite (removeFirst_absent _ _ Habsent).
Qed.

Lemma changed_packages_by_relative_directory_witness :
  getChangedPackages sampleMatch mockedExecSync ["packages/package1/file1.ts"]
    [package1; package2] = Some [package1]
  /\ (In package1 [package1] <->
      In package1 [package1; package2]
      /\ exists file,
           In file ["packages/package1/file1.ts"]
           /\ sampleMatch file (PString "packages/package1") = Some true).
Proof.
  destruct (changed_packages_by_relative_directory regex sampleMatch mockedExecSync
              ["packages/package1/file1.ts"] [package1; package2] "/repo/root" eq_refl)
    as [ _ H ].
  destruct (H [package1] eq_refl) as (_ & _ & Hin).
  split; [ reflexivity | ]. apply (Hin package1). reflexivity.
Defined.

(** X11.  Every changeset the assembler returns has at least one
    release, carries impacted packages taken in order from the packages
    given, has the message of one of the units as its summary and, for
    each impacted package in order, a release of the severity of that
    message; and the summaries follow the order of the units. *)
Theorem emitted_changesets_are_well_formed (RegExpObject : Type)
    (stringMatch : string -> pattern RegExpObject -> option bool)
    (execSync : string -> option string)
    (units : list ConventionalMessagesToCommits) (options : Options RegExpObject)
    (result : list Changeset.t) :
  conventionalMessagesWithCommitsToChangesets stringMatch execSync units options = Some result ->
  Forall
    (fun changeset =>
       Changeset.releases changeset <> []
       /\ sublist (Changeset.packagesChanged changeset) (packages options)
       /\ exists entry releaseType,
            In entry units
            /\ Changeset.summary changeset = changelogMessage entry
            /\ determineReleaseType (changelogMessage entry) (releaseRules options)
               = Some releaseType
            /\ Changeset.releases changeset =
                 map (fun pkg =>
                        Release.mk (PackageJson.name (ManyPkgPackage.packageJson pkg))
                          releaseType)
                   (Changeset.packagesChanged changeset))
    result
  /\ sublist (map Changeset.summary result) (map changelogMessage units).
Proof.
  intros H. apply assembler_emits in H. exact H.
Qed.

Lemma emitted_changesets_are_well_formed_witness :
  sublist
    (map Changeset.summary
       [ Changeset.mk [Release.mk "package2" patch] "fix: fix a bug" [package2] ])
    (map changelogMessage sampleUnits).
Proof.
  apply (emitted_changesets_are_well_formed regex sampleMatch mockedExecSync sampleUnits
           (mkOptions (Some [ignoreTsOfPackage1]) [package1; package2] None)).
  reflexivity.
Defined.



(** X13.  The difference keeps, in order, exactly the candidates with no
    equal in the baseline; comparing against two baselines put end to
    end is comparing against one and then the other; and comparing the
    survivors against the same baseline again removes nothing. *)
Theorem difference_composes (a b c : list Changeset.t) :
  sublist (difference a b) a
  /\ (forall x,
        In x (difference a b) <->
        In x a /\ forall y, In y b -> compareChangeSet x y = false)
  /\ difference a (b ++ c) = difference (difference a b) c
  /\ difference (difference a b) b = difference a b.
Proof.
  unfold difference. split; [ apply filter_sublist | ]. split; [ | split ].
  - intros x. rewrite filter_In, negb_true_iff. split; intros [ Hin H ]; split; trivial.
    + intros y Hy. destruct (compareChangeSet x y) eqn:E; [ | reflexivity ].
      assert (Hex : existsb (fun changeB => compareChangeSet x changeB) b = true)
        by (apply existsb_exists; eauto).
      congruence.
    + apply not_true_is_false. intros Hex. apply existsb_exists in Hex.
      destruct Hex as (y & Hy & Hxy). rewrite (H y Hy) in Hxy. discriminate.
  - rewrite filter_filter. apply filter_ext. intros x.
    now rewrite existsb_app, negb_orb.
  - rewrite filter_filter. apply filter_ext. intros x. now destruct (existsb _ b).
Qed.

Section CommitSourceFacts.

Lemma split_not_nil (sep : ascii) (s : string) : split sep s <> [].
Proof.
  induction s as [ | c s IH ]; simpl; [ discriminate | ].
  destruct (Ascii.eqb c sep); [ discriminate | ].
  destruct (split sep s); [ congruence | discriminate ].
Qed.

(** No line of a text holds a line feed. *)
Lemma split_noLineFeed (s : string) :
  Forall (fun line => noLineFeed line = true) (split LF s).
Proof.
  induction s as [ | c s IH ]; simpl; [ repeat constructor | ].
  destruct (Ascii.eqb c LF) eqn:E; [ now constructor | ].
  destruct (split LF s) as [ | h t ]; [ repeat constructor; simpl; now rewrite E | ].
  inversion IH; subst. constructor; trivial. simpl. now rewrite E.
Qed.

(** The lines of a text, joined by line feeds, are the text. *)
Lemma concat_split (s : string) : String.concat newline (split LF s) = s.
Proof.
  induction s as [ | c s IH ]; simpl; [ reflexivity | ].
  assert (Hne := split_not_nil LF s).
  destruct (Ascii.eqb c LF) eqn:E.
  - apply Ascii.eqb_eq in E. subst c.
    destruct (split LF s) as [ | h t ]; [ congruence | ].
    rewrite <- IH. reflexivity.
  - destruct (split LF s) as [ | h t ]; [ congruence | ].
    rewrite <- IH. now destruct t.
Qed.

Lemma nonEmptyLines_In (lines : list string) (line : string) :
  In line (nonEmptyLines lines) <-> In line lines /\ line <> "".
Proof.
  unfold nonEmptyLines. rewrite filter_In, negb_true_iff, String.eqb_neq. reflexivity.
Qed.

End CommitSourceFacts.

(** X14.  The commit source returns the non-empty lines of the listing
    that git printed, each as often as it is printed, in reverse order:
    the listing is cut into the lines that hold no line feed and that,
    joined by line feeds, give the listing back, the empty lines are
    left out and the rest is reversed.  So no hash it returns is empty
    or holds a line feed, and the hashes are the non-empty lines. *)
Theorem listed_commits_are_hashes (execSync : string -> option string)
    (branch : string) (hashes : list string) :
  getCommitsSinceRef execSync branch = Some hashes ->
  Forall (fun h => h <> "" /\ noLineFeed h = true) hashes
  /\ exists sinceRef out lines,
       execSync ("git rev-list --ancestry-path " ++ sinceRef ++ "...HEAD")%string = Some out
       /\ String.concat newline lines = out
       /\ Forall (fun line => noLineFeed line = true) lines
       /\ hashes = rev (filter (fun line => negb (String.eqb line "")) lines)
       /\ forall h, In h hashes <-> In h lines /\ h <> "".
Proof.
  unfold getCommitsSinceRef, gitFetch, getCurrentBranch.
  destruct (execSync (_ ++ branch)%string); [ | discriminate ].
  destruct (execSync "git rev-parse --abbrev-ref HEAD"); [ | discriminate ].
  destruct (sinceRefOf _ _ _) as [ sinceRef | ]; [ | discriminate ].
  destruct (execSync (_ ++ trim sinceRef ++ _)%string) as [ out | ] eqn:E; [ | discriminate ].
  intros H. injection H as <-.
  assert (Hin : forall h,
             In h (rev (nonEmptyLines (split LF out))) <-> In h (split LF out) /\ h <> "").
  { intros h. rewrite <- in_rev. apply nonEmptyLines_In. }
  split.
  - apply Forall_forall. intros h Hh. apply Hin in Hh. destruct Hh as [ Hh Hne ].
    split; [ exact Hne | ].
    assert (Hall := split_noLineFeed out). rewrite Forall_forall in Hall. now apply Hall.
  - exists (trim sinceRef), out, (split LF out). split; [ exact E | ].
    split; [ apply concat_split | ]. split; [ apply split_noLineFeed | ].
    split; [ reflexivity | exact Hin ].
Qed.

Lemma listed_commits_are_hashes_witness :
  getCommitsSinceRef mockedGit "main" = Some ["hash1"; "hash2"]
  /\ mockedGit "git rev-list --ancestry-path root000...HEAD" =
       Some ("hash2" ++ newline ++ "hash1" ++ newline)%string
  /\ exists sinceRef out lines,
       mockedGit ("git rev-list --ancestry-path " ++ sinceRef ++ "...HEAD")%string = Some out
       /\ String.concat newline lines = out
       /\ Forall (fun line => noLineFeed line = true) lines
       /\ ["hash1"; "hash2"] = rev (filter (fun line => negb (String.eqb line "")) lines).
Proof.
  split; [ reflexivity | ]. split; [ reflexivity | ].
  destruct (listed_commits_are_hashes mockedGit "main" ["hash1"; "hash2"] eq_refl)
    as (_ & sinceRef & out & lines & Hout & Hjoin & Hlines & Horder & _).
  exists sinceRef, out, lines. repeat split; assumption.
Defined.

(** X15.  Whatever the script hands to the writer, every release in it
    names a package of the workspace that has a version and is not in
    the ignore list of the configuration, and no changeset in it is
    equal, for the comparison, to a changeset already persisted. *)
Theorem script_writes_new_releases_of_tracked_packages (RegExpObject : Type)
    (stringMatch : string -> pattern RegExpObject -> option bool)
    (execSync : string -> option string)
    (changesetConfig : Config) (ignoredFiles : list (pattern RegExpObject))
    (workspacePackages : list ManyPkgPackage.t)
    (currentChangesets written : list Changeset.t) :
  conventionalCommitChangeset stringMatch execSync changesetConfig ignoredFiles
    workspacePackages currentChangesets = Some written ->
  Forall
    (fun changeset =>
       (forall r,
          In r (Changeset.releases changeset) ->
          exists pkg,
            In pkg workspacePackages
            /\ PackageJson.name (ManyPkgPackage.packageJson pkg) = Release.name r
            /\ PackageJson.version (ManyPkgPackage.packageJson pkg) <> ""
            /\ ~ In (Release.name r) (ignoredNames changesetConfig))
       /\ (forall old, In old currentChangesets -> compareChangeSet changeset old = false))
    written.
Proof.
  unfold conventionalCommitChangeset. fold (ignoredNames changesetConfig).
  destruct (getCommitsSinceRef _ _) as [ commitsSinceBase | ]; [ | discriminate ].
  destruct (mapThrowing _ commitsSinceBase) as [ commitsWithMessages | ]; [ | discriminate ].
  destruct (conventionalMessagesWithCommitsToChangesets _ _ _ _) as [ changesets | ] eqn:E;
    [ | discriminate ].
  intros H. injection H as <-.
  apply assembler_emits in E. destruct E as [ Hemitted _ ].
  rewrite Forall_forall in Hemitted.
  apply Forall_forall. intros changeset Hin.
  rewrite newChangesets_difference in Hin. unfold difference in Hin.
  apply filter_In in Hin. destruct Hin as [ Hin Hnew ]. split.
  - intros r Hr.
    destruct (Hemitted changeset Hin) as (_ & Hsub & entry & releaseType & _ & _ & _ & Hrel).
    rewrite Hrel in Hr. apply in_map_iff in Hr. destruct Hr as (pkg & <- & Hpkg).
    apply (sublist_In _ _ _ _ Hsub) in Hpkg. cbn [packages] in Hpkg.
    apply filter_In in Hpkg. destruct Hpkg as [ Hpkg Htracked ].
    apply andb_true_iff in Htracked. destruct Htracked as [ Hv Hi ].
    exists pkg. cbn [Release.name]. repeat split; trivial.
    + unfold hasVersion in Hv. apply negb_true_iff in Hv. now apply String.eqb_neq.
    + unfold hasNotIgnored in Hi. apply negb_true_iff in Hi. intros Hignored.
      assert (Hex : existsb
                      (String.eqb (PackageJson.name (ManyPkgPackage.packageJson pkg)))
                      (ignoredNames changesetConfig) = true).
      { apply existsb_exists. eexists. split; [ exact Hignored | apply String.eqb_refl ]. }
      congruence.
  - intros old Hold. apply negb_true_iff in Hnew.
    destruct (compareChangeSet changeset old) eqn:Hc; [ | reflexivity ].
    assert (Hex : existsb (fun changeB => compareChangeSet changeset changeB)
                    currentChangesets = true)
      by (apply existsb_exists; eauto).
    congruence.
Qed.

Lemma script_writes_new_releases_of_tracked_packages_witness :
  Forall
    (fun changeset =>
       (forall r,
          In r (Changeset.releases changeset) ->
          exists pkg,
            In pkg [package1; package2]
            /\ PackageJson.name (ManyPkgPackage.packageJson pkg) = Release.name r
            /\ PackageJson.version (ManyPkgPackage.packageJson pkg) <> ""
            /\ ~ In (Release.name r) (ignoredNames sampleConfig))
       /\ (forall old, In old [fixWithoutNewline] -> compareChangeSet changeset old = false))
    [ Changeset.mk [Release.mk "package1" minor] "feat: add new feature" [package1] ].
Proof.
  apply (script_writes_new_releases_of_tracked_packages regex sampleMatch mockedGit
           sampleConfig [] [package1; package2] [fixWithoutNewline]).
  reflexivity.
Defined.

(** X16.  The list of changed files is never empty and none of its
    paths holds a line feed: it is the lines of the trimmed output of
    the diff command, which joined by line feeds give that output back;
    when the command prints nothing but white space the list is one
    empty path. *)
Theorem changed_files_are_lines (execSync : string -> option string)
    (from to : string) (files : list string) :
  getFilesChangedSince execSync from to = Some files ->
  files <> []
  /\ Forall (fun file => noLineFeed file = true) files
  /\ exists out,
       execSync ("git diff --name-only " ++ from ++ "~1..." ++ to)%string = Some out
       /\ String.concat newline files = trim out
       /\ (trim out = "" -> files = [""]).
Proof.
  unfold getFilesChangedSince.
  destruct (execSync _) as [ out | ] eqn:E; [ | discriminate ].
  intros H. injection H as <-.
  split; [ apply split_not_nil | ]. split; [ apply split_noLineFeed | ].
  exists out. split; [ reflexivity | ]. split; [ apply concat_split | ].
  now intros ->.
Qed.

Lemma changed_files_are_lines_witness :
  ["packages/package1/file1.ts"] <> []
  /\ Forall (fun file => noLineFeed file = true) ["packages/package1/file1.ts"]
  /\ exists out,
       mockedExecSync ("git diff --name-only " ++ "hash1" ++ "~1..." ++ "hash2")%string
         = Some out
       /\ String.concat newline ["packages/package1/file1.ts"] = trim out
       /\ (trim out = "" -> ["packages/package1/file1.ts"] = [""]).
Proof.
  apply (changed_files_are_lines mockedExecSync "hash1" "hash2"). reflexivity.
Defined.

(** X17.  The commit source throws exactly when the fetch throws, or the
    query of the current branch throws, or, on the base branch, both the
    lookup of the latest tag and that of the first commit throw, or the
    listing of the commits throws; a missing tag alone is not an error. *)
Theorem commit_source_fails_with_git (execSync : string -> option string) (branch : string) :
  getCommitsSinceRef execSync branch = None <->
    execSync ("git fetch origin " ++ branch)%string = None
    \/ execSync "git rev-parse --abbrev-ref HEAD" = None
    \/ (exists current,
          execSync "git rev-parse --abbrev-ref HEAD" = Some current
          /\ trim current = branch
          /\ execSync "git describe --tags --abbrev=0" = None
          /\ execSync "git rev-list --max-parents=0 HEAD" = None)
    \/ (exists current sinceRef,
          execSync "git rev-parse --abbrev-ref HEAD" = Some current
          /\ sinceRefOf execSync branch (trim current) = Some sinceRef
          /\ execSync ("git rev-list --ancestry-path " ++ trim sinceRef ++ "...HEAD")%string
             = None).
Proof.
  unfold getCommitsSinceRef, gitFetch, getCurrentBranch.
  destruct (execSync (_ ++ branch)%string) as [ fetched | ]; [ | now split; [ left | ] ].
  destruct (execSync "git rev-parse --abbrev-ref HEAD") as [ current | ];
    [ | now split; [ right; left | ] ].
  destruct (sinceRefOf execSync branch (trim current)) as [ sinceRef | ] eqn:Eref.
  - destruct (execSync (_ ++ trim sinceRef ++ _)%string) as [ out | ] eqn:Eout.
    + split; [ discriminate | ].
      intros [ H | [ H | [ (c & Hc & Hb & Hd & Hr) | (c & r & Hc & Hs & Hl) ] ] ];
        try discriminate.
      * injection Hc as <-. unfold sinceRefOf in Eref.
        apply String.eqb_eq in Hb. rewrite Hb, Hd, Hr in Eref. discriminate.
      * injection Hc as <-. rewrite Eref in Hs. injection Hs as <-. congruence.
    + split; [ intros _ | reflexivity ]. right. right. right. eauto.
  - split; [ intros _ | reflexivity ]. right. right. left.
    exists current. split; [ reflexivity | ]. unfold sinceRefOf in Eref.
    destruct (String.eqb (trim current) branch) eqn:Eb; [ | discriminate ].
    apply String.eqb_eq in Eb.
    destruct (execSync "git describe --tags --abbrev=0"); [ discriminate | ]. auto.
Qed.

Section DiffRange.

Lemma group_hashes (commits : list Commit) :
  concat (map commitHashes (associateCommitsToConventionalCommitMessages commits)) =
    map commitHash commits
  /\ Forall (fun u => commitHashes u <> [])
       (associateCommitsToConventionalCommitMessages commits).
Proof.
  induction commits as [ | c before [ IH1 IH2 ] ] using rev_ind;
    [ split; [ reflexivity | constructor ] | ].
  rewrite group_snoc. split.
  - now rewrite associate_hashes, IH1, map_app.
  - now apply associate_hashes_not_nil.
Qed.

Lemma hashAt_first (hashes : list string) :
  hashes <> [] -> hd_error hashes = Some (hashAt 0 hashes).
Proof. destruct hashes; [ congruence | reflexivity ]. Qed.

Lemma hashAt_last_In (hashes : list string) :
  hashes <> [] -> In (hashAt (length hashes - 1) hashes) hashes.
Proof.
  intros H. unfold hashAt. apply nth_In. destruct hashes; [ congruence | simpl; lia ].
Qed.

End DiffRange.

(** X18.  For a unit of the grouper the diff command runs from the first
    hash of the unit to its last one, both being hashes of commits of
    the input: the text that stands for a missing hash never gets into
    the command. *)
Theorem diff_range_of_grouped_units (commits : list Commit)
    (entry : ConventionalMessagesToCommits) :
  In entry (associateCommitsToConventionalCommitMessages commits) ->
  exists first last,
    hd_error (commitHashes entry) = Some first
    /\ hd_error (rev (commitHashes entry)) = Some last
    /\ In first (map commitHash commits)
    /\ In last (map commitHash commits)
    /\ diffCommand entry = ("git diff --name-only " ++ first ++ "~1..." ++ last)%string.
Proof.
  intros Hin. destruct (group_hashes commits) as [ Hconcat Hne ].
  rewrite Forall_forall in Hne. specialize (Hne entry Hin).
  assert (Hsub : forall h, In h (commitHashes entry) -> In h (map commitHash commits)).
  { intros h Hh. rewrite <- Hconcat. apply in_concat.
    exists (commitHashes entry). split; [ now apply in_map | exact Hh ]. }
  exists (hashAt 0 (commitHashes entry)),
    (hashAt (length (commitHashes entry) - 1) (commitHashes entry)).
  split; [ now apply hashAt_first | ]. split; [ | split; [ | split ] ].
  - destruct (snoc_cases (commitHashes entry)) as [ E | (init & h & E) ]; [ congruence | ].
    rewrite E, rev_app_distr. unfold hashAt. now rewrite nth_last.
  - apply Hsub. destruct (commitHashes entry); [ congruence | now left ].
  - apply Hsub. now apply hashAt_last_In.
  - reflexivity.
Qed.

Lemma diff_range_of_grouped_units_witness :
  exists first last,
    hd_error ["hash1"; "hash2"] = Some first
    /\ hd_error (rev ["hash1"; "hash2"]) = Some last
    /\ In first (map commitHash wipThenFeat)
    /\ In last (map commitHash wipThenFeat)
    /\ diffCommand (mkUnit "feat: add X" ["hash1"; "hash2"]) =
         ("git diff --name-only " ++ first ++ "~1..." ++ last)%string.
Proof.
  apply (diff_range_of_grouped_units wipThenFeat (mkUnit "feat: add X" ["hash1"; "hash2"])).
  now left.
Defined.
